(** * Data shield: parameter sanitization (data_shield/helpers.py, actions.py, function.py)

    Shallow embedding of the matching, masking, walking and orchestration code.
    Python strings are modelled as lists of ASCII characters; Python
    exceptions as the [Err] branch of [result]; Python dicts as ordered
    association lists (insertion order is iteration order). *)

From Stdlib Require Import List Ascii String Bool Arith Lia.
Import ListNotations.
Open Scope list_scope.

(** ** Python exceptions and the result monad *)

Inductive exc : Type :=
| AttributeError
| TypeError
| KeyError
| ValueError
(** [Unmodelled]: a library behaviour outside the modelled fragment
    (e.g. regex syntax the parser below does not cover). *)
| Unmodelled.

Inductive result (A : Type) : Type :=
| Ok (a : A)
| Err (e : exc).
Arguments Ok {A} a.
Arguments Err {A} e.

Definition bind {A B} (m : result A) (k : A -> result B) : result B :=
  match m with
  | Ok a => k a
  | Err e => Err e
  end.

Notation "'let*' x ':=' m 'in' k" := (bind m (fun x => k))
  (at level 200, x name, m at level 100, k at level 200).
Notation "'let*' ' p ':=' m 'in' k" := (bind m (fun x => let ' p := x in k))
  (at level 200, p pattern, m at level 100, k at level 200).

(** ** Strings *)

Definition str := list ascii.

Definition s2l (s : string) : str := list_ascii_of_string s.

Definition ascii_eqb (a b : ascii) : bool := Ascii.eqb a b.

Fixpoint str_eqb (a b : str) : bool :=
  match a, b with
  | [], [] => true
  | x :: a', y :: b' => ascii_eqb x y && str_eqb a' b'
  | _, _ => false
  end.

Definition between (lo hi c : ascii) : bool :=
  (nat_of_ascii lo <=? nat_of_ascii c) && (nat_of_ascii c <=? nat_of_ascii hi).

(** [str.lower] / [str.upper] on ASCII letters. *)
Definition lower_c (c : ascii) : ascii :=
  if between "A" "Z" c then ascii_of_nat (nat_of_ascii c + 32) else c.
Definition upper_c (c : ascii) : ascii :=
  if between "a" "z" c then ascii_of_nat (nat_of_ascii c - 32) else c.
Definition lower (s : str) : str := map lower_c s.

Fixpoint startswith (s p : str) : bool :=
  match p, s with
  | [], _ => true
  | y :: p', x :: s' => ascii_eqb x y && startswith s' p'
  | _ :: _, [] => false
  end.

Definition endswith (s p : str) : bool := startswith (rev s) (rev p).

(** [s.rstrip("i")]: removes every trailing ["i"]. *)
Fixpoint drop_while_i (s : str) : str :=
  match s with
  | x :: s' => if ascii_eqb x "i" then drop_while_i s' else s
  | [] => []
  end.
Definition rstrip_i (s : str) : str := rev (drop_while_i (rev s)).

(** Python slice [s[1:-k]] for [k >= 1]. *)
Definition slice_1_minus (s : str) (k : nat) : str :=
  firstn (List.length s - k - 1) (tl s).

Fixpoint repeat_c (c : ascii) (n : nat) : str :=
  match n with
  | 0 => []
  | S n' => c :: repeat_c c n'
  end.

(** ** A backtracking regular-expression engine (Python [re]) *)

Inductive re : Type :=
| RChr (c : ascii)
| RAny                                  (* [.] : any character but newline *)
| RSet (neg : bool) (items : list (ascii * ascii))
| RBol                                  (* [^] *)
| REol                                  (* [$] *)
| REps
| RCat (r1 r2 : re)
| RAlt (r1 r2 : re)                     (* tried left first *)
| RStar (r : re).                       (* greedy *)

Definition RPlus (r : re) : re := RCat r (RStar r).
Definition ROpt (r : re) : re := RAlt r REps.

Definition chr_eq (ic : bool) (a b : ascii) : bool :=
  if ic then ascii_eqb (lower_c a) (lower_c b) else ascii_eqb a b.

Definition in_items (items : list (ascii * ascii)) (c : ascii) : bool :=
  existsb (fun '(lo, hi) => between lo hi c) items.

Definition set_match (ic neg : bool) (items : list (ascii * ascii)) (c : ascii) : bool :=
  let hit := in_items items c
             || (ic && (in_items items (lower_c c) || in_items items (upper_c c))) in
  if neg then negb hit else hit.

Definition prepend (c1 : str) (p : str * str) : str * str :=
  let '(c2, t2) := p in (c1 ++ c2, t2).

Definition is_nil (s : str) : bool := match s with [] => true | _ => false end.

(** Greedy iteration of a matcher [m]: at most [n] non-empty rounds,
    longer matches first, the empty match last. *)
Fixpoint star_ends (m : bool -> str -> list (str * str)) (n : nat) (b : bool) (s : str)
  : list (str * str) :=
  match n with
  | 0 => [([], s)]
  | S n' =>
      flat_map (fun p => let '(c1, t1) := p in
                         if is_nil c1 then []
                         else map (prepend c1) (star_ends m n' false t1))
               (m b s) ++ [([], s)]
  end.

(** [ends r ic bol s]: every way [r] matches a prefix of [s], as pairs
    (consumed, rest), in the order a backtracking matcher tries them;
    [bol] tells whether [s] starts at the beginning of the subject. *)
Fixpoint ends (r : re) (ic bol : bool) (s : str) {struct r} : list (str * str) :=
  match r with
  | RChr c => match s with
              | x :: t => if chr_eq ic c x then [([x], t)] else []
              | [] => []
              end
  | RAny => match s with
            | x :: t => if ascii_eqb x "010"%char then [] else [([x], t)]
            | [] => []
            end
  | RSet neg items => match s with
                      | x :: t => if set_match ic neg items x then [([x], t)] else []
                      | [] => []
                      end
  | RBol => if bol then [([], s)] else []
  | REol => match s with
            | [] => [([], s)]
            | [x] => if ascii_eqb x "010"%char then [([], s)] else []
            | _ => []
            end
  | REps => [([], s)]
  | RCat r1 r2 =>
      flat_map (fun p => let '(c1, t1) := p in
                         map (prepend c1) (ends r2 ic (bol && is_nil c1) t1))
               (ends r1 ic bol s)
  | RAlt r1 r2 => ends r1 ic bol s ++ ends r2 ic bol s
  | RStar r1 => star_ends (fun b s => ends r1 ic b s) (S (List.length s)) bol s
  end.

(** [re.search(...) is not None]. *)
Fixpoint search (r : re) (ic bol : bool) (s : str) : bool :=
  match ends r ic bol s with
  | _ :: _ => true
  | [] => match s with
          | [] => false
          | _ :: s' => search r ic false s'
          end
  end.

(** [re.sub(r, f, s)]: leftmost matches, first in backtracking order,
    scanned left to right; an empty match is replaced and the next
    character copied. *)
Fixpoint sub_loop (fuel : nat) (r : re) (ic : bool) (f : str -> result str)
         (bol : bool) (s : str) : result str :=
  match fuel with
  | 0 => Err Unmodelled
  | S n =>
      match ends r ic bol s with
      | (c, t) :: _ =>
          let* c' := f c in
          match c with
          | [] => match s with
                  | [] => Ok c'
                  | x :: s' => let* rest := sub_loop n r ic f false s' in Ok (c' ++ x :: rest)
                  end
          | _ :: _ => let* rest := sub_loop n r ic f false t in Ok (c' ++ rest)
          end
      | [] => match s with
              | [] => Ok []
              | x :: s' => let* rest := sub_loop n r ic f false s' in Ok (x :: rest)
              end
      end
  end.

Definition re_sub (r : re) (ic : bool) (f : str -> result str) (s : str) : result str :=
  sub_loop (S (List.length s)) r ic f true s.

(** ** [re.compile]: a parser for the fragment of Python regex syntax
    used by the program (literals, [.], [^], [$], classes, [\d \w \s]
    and their negations, escaped punctuation, [* + ?] and [{m} {m,} {m,n}]).
    Groups, alternation, lazy quantifiers and other escapes give [None]:
    outside the modelled fragment. *)

Definition digit_items : list (ascii * ascii) := [("0", "9")]%char.
Definition word_items : list (ascii * ascii) :=
  [("a", "z"); ("A", "Z"); ("0", "9"); ("_", "_")]%char.
Definition space_items : list (ascii * ascii) := [(" ", " "); ("009", "013")]%char.

Definition is_alnum (c : ascii) : bool :=
  between "a" "z" c || between "A" "Z" c || between "0" "9" c.

(** Class escapes [\d \w \s] inside or outside brackets. *)
Definition class_escape (e : ascii) : option (bool * list (ascii * ascii)) :=
  if ascii_eqb e "d" then Some (false, digit_items)
  else if ascii_eqb e "D" then Some (true, digit_items)
  else if ascii_eqb e "w" then Some (false, word_items)
  else if ascii_eqb e "W" then Some (true, word_items)
  else if ascii_eqb e "s" then Some (false, space_items)
  else if ascii_eqb e "S" then Some (true, space_items)
  else None.

(** Single-character escapes: [\n], [\t] and escaped punctuation. *)
Definition char_escape (e : ascii) : option ascii :=
  if ascii_eqb e "n" then Some "010"%char
  else if ascii_eqb e "t" then Some "009"%char
  else if is_alnum e then None
  else Some e.

(** Items of a bracketed class, up to the closing bracket. *)
Fixpoint parse_items (s : str) : option (list (ascii * ascii) * str) :=
  match s with
  | [] => None
  | c :: rest =>
      if ascii_eqb c "]" then Some ([], rest)
      else if ascii_eqb c "\" then
        match rest with
        | e :: rest' =>
            match class_escape e with
            | Some (false, its) =>
                match parse_items rest' with
                | Some (l, r) => Some (its ++ l, r)
                | None => None
                end
            | Some (true, _) => None
            | None =>
                match char_escape e with
                | Some e' =>
                    match parse_items rest' with
                    | Some (l, r) => Some ((e', e') :: l, r)
                    | None => None
                    end
                | None => None
                end
            end
        | [] => None
        end
      else
        match rest with
        | d :: e :: rest' =>
            if ascii_eqb d "-" then
              if ascii_eqb e "]" then Some ([(c, c); ("-", "-")]%char, rest')
              else if ascii_eqb e "\" then None
              else if nat_of_ascii e <? nat_of_ascii c then None
              else match parse_items rest' with
                   | Some (l, r) => Some ((c, e) :: l, r)
                   | None => None
                   end
            else match parse_items rest with
                 | Some (l, r) => Some ((c, c) :: l, r)
                 | None => None
                 end
        | _ => match parse_items rest with
               | Some (l, r) => Some ((c, c) :: l, r)
               | None => None
               end
        end
  end.

Definition parse_class (s : str) : option (re * str) :=
  match s with
  | c :: rest =>
      let '(neg, body) := if ascii_eqb c "^" then (true, rest) else (false, s) in
      match parse_items body with
      | Some ([], _) => None
      | Some (items, r) => Some (RSet neg items, r)
      | None => None
      end
  | [] => None
  end.

Fixpoint digits_val (acc : nat) (s : str) : nat * nat * str :=
  (* value, number of digits read, rest *)
  match s with
  | c :: rest =>
      if between "0" "9" c then
        let '(v, k, r) := digits_val (acc * 10 + (nat_of_ascii c - 48)) rest in (v, S k, r)
      else (acc, 0, s)
  | [] => (acc, 0, s)
  end.

Fixpoint rep (a : re) (n : nat) : re :=
  match n with
  | 0 => REps
  | S n' => RCat a (rep a n')
  end.

Fixpoint rep_opt (a : re) (n : nat) : re :=
  match n with
  | 0 => REps
  | S n' => ROpt (RCat a (rep_opt a n'))
  end.

(** Brace quantifier body after [{]. *)
Definition parse_brace (a : re) (s : str) : option (re * str) :=
  let '(m, km, r1) := digits_val 0 s in
  if km =? 0 then None else
  match r1 with
  | c :: r2 =>
      if ascii_eqb c "}" then Some (rep a m, r2)
      else if ascii_eqb c "," then
        let '(n, kn, r3) := digits_val 0 r2 in
        match r3 with
        | c' :: r4 =>
            if negb (ascii_eqb c' "}") then None
            else if kn =? 0 then Some (RCat (rep a m) (RStar a), r4)
            else if n <? m then None
            else Some (RCat (rep a m) (rep_opt a (n - m)), r4)
        | [] => None
        end
      else None
  | [] => None
  end.

Definition is_quant_char (c : ascii) : bool :=
  ascii_eqb c "*" || ascii_eqb c "+" || ascii_eqb c "?" || ascii_eqb c "{".

(** Optional quantifier after an atom. *)
Definition parse_quant (a : re) (s : str) : option (re * str) :=
  let res :=
    match s with
    | c :: rest =>
        if ascii_eqb c "*" then Some (RStar a, rest)
        else if ascii_eqb c "+" then Some (RPlus a, rest)
        else if ascii_eqb c "?" then Some (ROpt a, rest)
        else if ascii_eqb c "{" then parse_brace a rest
        else Some (a, s)
    | [] => Some (a, s)
    end in
  match res with
  | Some (a', c :: _) =>
      (* lazy or possessive suffix, or a repeated quantifier *)
      if (match s with c0 :: _ => is_quant_char c0 | [] => false end) && is_quant_char c
      then None else res
  | _ => res
  end.

Definition is_anchor (a : re) : bool :=
  match a with RBol | REol => true | _ => false end.

(** One atom. *)
Definition parse_atom (s : str) : option (re * str) :=
  match s with
  | c :: rest =>
      if ascii_eqb c "^" then Some (RBol, rest)
      else if ascii_eqb c "$" then Some (REol, rest)
      else if ascii_eqb c "." then Some (RAny, rest)
      else if ascii_eqb c "[" then parse_class rest
      else if ascii_eqb c "\" then
        match rest with
        | e :: rest' =>
            match class_escape e with
            | Some (neg, its) => Some (RSet neg its, rest')
            | None => match char_escape e with
                      | Some e' => Some (RChr e', rest')
                      | None => None
                      end
            end
        | [] => None
        end
      else if ascii_eqb c "(" || ascii_eqb c ")" || ascii_eqb c "|" || is_quant_char c
      then None
      else Some (RChr c, rest)
  | [] => None
  end.

Fixpoint parse_seq (fuel : nat) (acc : re) (s : str) : option re :=
  match s with
  | [] => Some acc
  | _ :: _ =>
      match fuel with
      | 0 => None
      | S n =>
          match parse_atom s with
          | Some (a, r) =>
              match r with
              | q :: _ => if is_anchor a && is_quant_char q then None else
                          match parse_quant a r with
                          | Some (a', r') => parse_seq n (RCat acc a') r'
                          | None => None
                          end
              | [] => Some (RCat acc a)
              end
          | None => None
          end
      end
  end.

Definition re_compile (pattern : str) : option re :=
  parse_seq (List.length pattern) REps pattern.

(** ** Python values and dicts *)

(** Values met in a properties structure: [PBase] is a specklepy [Base]
    object, given by its [speckle_type] and its instance [__dict__]. *)
#[warnings="-register-all"]
Inductive pyval : Type :=
| PStr (s : str)
| PNum (n : nat)
| PNone
| PDict (d : list (str * pyval))
| PBase (speckle_type : str) (members : list (str * pyval)).

Definition dict := list (str * pyval).

Fixpoint dict_get (d : dict) (k : str) : option pyval :=
  match d with
  | [] => None
  | (k', v) :: d' => if str_eqb k' k then Some v else dict_get d' k
  end.

Definition dict_has (d : dict) (k : str) : bool :=
  match dict_get d k with Some _ => true | None => false end.

(** [d.get(k, default)] *)
Definition dict_get_or (d : dict) (k : str) (default : pyval) : pyval :=
  match dict_get d k with Some v => v | None => default end.

(** [d.pop(k, None)] (the popped value is not used). *)
Fixpoint dict_pop (d : dict) (k : str) : dict :=
  match d with
  | [] => []
  | (k', v) :: d' => if str_eqb k' k then d' else (k', v) :: dict_pop d' k
  end.

(** [d[k] = v]: updates in place, or appends a new key. *)
Fixpoint dict_set (d : dict) (k : str) (v : pyval) : dict :=
  match d with
  | [] => [(k, v)]
  | (k', v') :: d' => if str_eqb k' k then (k, v) :: d' else (k', v') :: dict_set d' k v
  end.

(** ** helpers.py: [EmailMatcher] *)

Definition EMAIL_PATTERN : str := s2l "[a-zA-Z0-9._%+-]+@[a-zA-Z0-9.-]+\.[a-zA-Z]{2,}".

(** [email.split("@", 1)] unpacked into two names. *)
Fixpoint split_at_sign (s : str) : option (str * str) :=
  match s with
  | [] => None
  | c :: s' =>
      if ascii_eqb c "@" then Some ([], s')
      else match split_at_sign s' with
           | Some (l, d) => Some (c :: l, d)
           | None => None
           end
  end.

(** The new local part computed in [replace_email]. *)
Definition anonymize_local (local : str) : str :=
  if 2 <? List.length local then
    [hd "*"%char local] ++ repeat_c "*" (List.length local - 2) ++ [last local "*"%char]
  else if List.length local =? 2 then [hd "*"%char local; "*"%char]
  else ["*"%char].

(** [replace_email] inside [anonymize_email]. *)
Definition replace_email (email : str) : result str :=
  match split_at_sign email with
  | None => Err ValueError                 (* too few values to unpack *)
  | Some (local, domain) => Ok (anonymize_local local ++ "@"%char :: domain)
  end.

Definition contains_email (value : pyval) : result bool :=
  match value with
  | PStr s => match re_compile EMAIL_PATTERN with
              | Some r => Ok (search r false true s)
              | None => Err Unmodelled
              end
  | _ => Ok false
  end.

Definition anonymize_email (value : pyval) : result pyval :=
  match value with
  | PStr s => match re_compile EMAIL_PATTERN with
              | Some r => let* s' := re_sub r false replace_email s in Ok (PStr s')
              | None => Err Unmodelled
              end
  | v => Ok v
  end.

(** ** helpers.py: [PatternChecker] *)

Record pattern_checker := {
  pc_is_regex : bool;
  pc_ignore_case : bool;
  pc_regex : option re;
  pc_pattern : str
}.

Definition PatternChecker_init (pattern : str) (strict : bool) : result pattern_checker :=
  let is_regex := startswith pattern (s2l "/") && endswith (rstrip_i pattern) (s2l "/") in
  if is_regex then
    let '(ignore_case, pattern_body) :=
      if endswith pattern (s2l "/i") then (true, slice_1_minus pattern 2)
      else (negb strict, slice_1_minus pattern 1) in
    match re_compile pattern_body with
    | Some r => Ok {| pc_is_regex := true; pc_ignore_case := ignore_case;
                      pc_regex := Some r; pc_pattern := pattern_body |}
    | None => Err Unmodelled
    end
  else Ok {| pc_is_regex := false; pc_ignore_case := negb strict;
             pc_regex := None; pc_pattern := pattern |}.

(** [fnmatch.fnmatchcase] for patterns made of literals, [*] and [?];
    bracket expressions are outside the modelled fragment. *)
Fixpoint glob_match (p s : str) : bool :=
  match p with
  | [] => is_nil s
  | c :: p' =>
      if ascii_eqb c "*" then
        (fix star (s : str) : bool :=
           glob_match p' s || match s with [] => false | _ :: s' => star s' end) s
      else if ascii_eqb c "?" then
        match s with [] => false | _ :: s' => glob_match p' s' end
      else match s with [] => false | x :: s' => ascii_eqb c x && glob_match p' s' end
  end.

Definition fnmatchcase (name : pyval) (pattern : str) : result bool :=
  if existsb (fun c => ascii_eqb c "[") pattern then Err Unmodelled else
  match name with
  | PStr s => Ok (glob_match pattern s)
  | _ => Err TypeError
  end.

Definition PatternChecker_check (pc : pattern_checker) (param_name : pyval) : result bool :=
  if pc_is_regex pc then
    match pc_regex pc, param_name with
    | Some r, PStr s => Ok (search r (pc_ignore_case pc) true s)
    | Some _, _ => Err TypeError
    | None, _ => Err AttributeError
    end
  else if pc_ignore_case pc then
    match param_name with
    | PStr s => fnmatchcase (PStr (lower s)) (lower (pc_pattern pc))
    | _ => Err AttributeError              (* [param_name.lower()] *)
    end
  else fnmatchcase param_name (pc_pattern pc).

(** ** actions.py: matchers *)

Inductive ParameterMatcher : Type :=
| PrefixMatcher (match_value : str) (strict_mode : bool)
| PatternMatcher (match_value : str) (strict_mode : bool).

Definition matches (m : ParameterMatcher) (param_name : pyval) : result bool :=
  match m with
  | PrefixMatcher mv strict =>
      match param_name with
      | PStr s => if strict then Ok (startswith s mv) else Ok (startswith (lower s) (lower mv))
      | _ => Err AttributeError
      end
  | PatternMatcher mv strict =>
      let* pc := PatternChecker_init mv strict in PatternChecker_check pc param_name
  end.

(** ** Graph nodes *)

(** A traversal node: [nid] is its [id] ([None] for Python [None]);
    [properties] and [parameters] are [None] when the attribute is absent. *)
Record node := {
  nid : option str;
  properties : option pyval;
  parameters : option pyval
}.

(** ** actions.py: [ParameterAction] and its two subclasses *)

Inductive ParameterAction : Type :=
| RemovalAction (matcher : ParameterMatcher)
| AnonymizationAction.

(** The mutable fields of an action: [affected_parameters], a
    [defaultdict(list)] keyed by object id, and [anonymized_count]. *)
Record action_state := {
  affected_parameters : list (option str * list pyval);
  anonymized_count : nat
}.

Definition action_state0 : action_state :=
  {| affected_parameters := []; anonymized_count := 0 |}.

Definition opt_str_eqb (a b : option str) : bool :=
  match a, b with
  | Some x, Some y => str_eqb x y
  | None, None => true
  | _, _ => false
  end.

(** [self.affected_parameters[object_id].append(param_name)] *)
Fixpoint dd_append (m : list (option str * list pyval)) (k : option str) (v : pyval)
  : list (option str * list pyval) :=
  match m with
  | [] => [(k, [v])]
  | (k', vs) :: m' => if opt_str_eqb k' k then (k', vs ++ [v]) :: m' else (k', vs) :: dd_append m' k v
  end.

(** [self.affected_parameters[object_id]] read through the defaultdict. *)
Fixpoint dd_get (m : list (option str * list pyval)) (k : option str) : list pyval :=
  match m with
  | [] => []
  | (k', vs) :: m' => if opt_str_eqb k' k then vs else dd_get m' k
  end.

Definition record_affected (st : action_state) (object_id : option str) (param_name : pyval)
  : action_state :=
  {| affected_parameters := dd_append (affected_parameters st) object_id param_name;
     anonymized_count := anonymized_count st |}.

Definition check (a : ParameterAction) (subject : pyval) : result bool :=
  match a with
  | RemovalAction m => matches m subject
  | AnonymizationAction => contains_email subject
  end.

(** [try: body except (AttributeError, KeyError, TypeError): handler] *)
Definition try_except {A} (body : result A) (handler : exc -> result A) : result A :=
  match body with
  | Err AttributeError => handler AttributeError
  | Err KeyError => handler KeyError
  | Err TypeError => handler TypeError
  | r => r
  end.

(** [delattr(obj, key)] on a plain instance: deletes from [__dict__] or
    raises [AttributeError]. *)
Definition base_delattr (members : dict) (key : str) : result dict :=
  if dict_has members key then Ok (dict_pop members key) else Err AttributeError.

(** The [Base] branch of [RemovalAction.apply]: the instance [__dict__]
    always exists, so [hasattr(containing_dict, "__dict__")] holds. *)
Definition base_remove (parameter : dict) (members : dict) (parameter_key : str) : result dict :=
  try_except
    (if dict_has members parameter_key then Ok (dict_pop members parameter_key)
     else Ok (dict_pop members parameter_key))
    (fun _ =>
       match base_delattr members parameter_key with
       | Ok ms => Ok ms
       | Err AttributeError | Err TypeError =>
           (* [setattr(containing_dict, parameter_key, None)] *)
           Ok (dict_set members parameter_key PNone)
       | Err e => Err e
       end).

(** [RemovalAction.apply]: returns the parameter dict, the container and
    the action state after the call. *)
Definition removal_apply (parameter : dict) (parent_object : node) (containing_dict : pyval)
    (parameter_key : str) (st : action_state) : result (dict * pyval * action_state) :=
  let param_name := dict_get_or parameter (s2l "name") (PStr parameter_key) in
  let object_id := nid parent_object in
  let* container' :=
    match containing_dict with
    | PDict d => Ok (PDict (dict_pop d parameter_key))
    | PBase t ms => let* ms' := base_remove parameter ms parameter_key in Ok (PBase t ms')
    | other => Ok other
    end in
  Ok (parameter, container', record_affected st object_id param_name).

(** [AnonymizationAction.apply] *)
Definition anonymization_apply (parameter : dict) (parent_object : node) (containing_dict : pyval)
    (parameter_key : str) (st : action_state) : result (dict * pyval * action_state) :=
  match dict_get parameter (s2l "value") with
  | Some (PStr original_value) =>
      let param_name := dict_get_or parameter (s2l "name") (PStr parameter_key) in
      let object_id := nid parent_object in
      let* anonymized := anonymize_email (PStr original_value) in
      match anonymized with
      | PStr anonymized_value =>
          if str_eqb anonymized_value original_value then Ok (parameter, containing_dict, st)
          else
            let parameter' := dict_set parameter (s2l "value") (PStr anonymized_value) in
            let container' :=
              match containing_dict with
              | PBase t ms =>
                  (* [containing_dict.__getitem__(parameter_key)], a [KeyError]
                     falling back to [getattr(..., None)] which finds nothing *)
                  match dict_get ms parameter_key with
                  | Some (PBase t' pms) =>
                      if dict_has pms (s2l "value")
                      then PBase t (dict_set ms parameter_key
                                      (PBase t' (dict_set pms (s2l "value") (PStr anonymized_value))))
                      else containing_dict
                  | _ => containing_dict
                  end
              | _ => containing_dict
              end in
            let st' := record_affected st object_id param_name in
            Ok (parameter', container',
                {| affected_parameters := affected_parameters st';
                   anonymized_count := S (anonymized_count st') |})
      | _ => Ok (parameter, containing_dict, st)
      end
  | _ => Ok (parameter, containing_dict, st)
  end.

Definition apply (a : ParameterAction) : dict -> node -> pyval -> str -> action_state
    -> result (dict * pyval * action_state) :=
  match a with
  | RemovalAction _ => removal_apply
  | AnonymizationAction => anonymization_apply
  end.

(** ** function.py: [ParameterProcessor] *)

Definition REVIT_PARAMETER_TYPE : str := s2l "Objects.BuiltElements.Revit.Parameter".

Record walker_state := {
  processed_objects : list (option str);    (* a Python set *)
  wact : action_state
}.

Definition set_add (s : list (option str)) (x : option str) : list (option str) :=
  if existsb (opt_str_eqb x) s then s else s ++ [x].

(** One parameter leaf found at [key] of [cur]: check, apply, mark the node. *)
Definition process_leaf (a : ParameterAction) (check_values : bool) (current_object : node)
    (cur : dict) (key : str) (value : dict) (st : walker_state) : result (dict * walker_state) :=
  let param_name := dict_get_or value (s2l "name") (PStr key) in
  let subject := if check_values then dict_get_or value (s2l "value") (PStr []) else param_name in
  let* ok := check a subject in
  if ok then
    let* '(value', container', ast') := apply a value current_object (PDict cur) key (wact st) in
    match container' with
    | PDict cur' =>
        (* [value] is the dict stored at [cur[key]]: updates made to it
           in place are seen through [cur] *)
        let cur'' := if dict_has cur' key then dict_set cur' key (PDict value') else cur' in
        Ok (cur'', {| processed_objects := set_add (processed_objects st) (nid current_object);
                      wact := ast' |})
    | _ => Ok (cur, st)                  (* a dict container stays a dict *)
    end
  else Ok (cur, st).

(** [process_properties_dict], on the dict [v]: iterates over the
    snapshot [list(properties_dict.items())] while [cur] is the live dict;
    nested dicts are updated in place.  Only called on dicts. *)
Fixpoint process_properties_value (a : ParameterAction) (check_values : bool)
    (current_object : node) (v : pyval) (st : walker_state) {struct v}
    : result (dict * walker_state) :=
  match v with
  | PDict items =>
      (fix loop (items : dict) (cur : dict) (st : walker_state) {struct items}
         : result (dict * walker_state) :=
         match items with
         | [] => Ok (cur, st)
         | (key, value) :: rest =>
             let* '(cur', st') :=
               match value with
               | PDict vd =>
                   if dict_has vd (s2l "value")
                   then process_leaf a check_values current_object cur key vd st
                   else
                     let* '(vd', st1) := process_properties_value a check_values current_object value st in
                     Ok (dict_set cur key (PDict vd'), st1)
               | _ => Ok (cur, st)
               end in
             loop rest cur' st'
         end) items items st
  | _ => Ok ([], st)
  end.

Definition process_properties_dict (a : ParameterAction) (check_values : bool)
    (properties_dict : dict) (current_object : node) (st : walker_state)
    : result (dict * walker_state) :=
  process_properties_value a check_values current_object (PDict properties_dict) st.

(** [process_context]: walks the properties mapping; the legacy
    [parameters] branch is the placeholder [pass]. *)
Definition process_context (a : ParameterAction) (check_values : bool) (current_object : node)
    (st : walker_state) : result (node * walker_state) :=
  let* '(obj', st') :=
    match properties current_object with
    | None | Some PNone => Ok (current_object, st)
    | Some p =>
        let* '(d, rebuild) :=
          match p with
          | PBase t ms => Ok (ms, fun ms' => PBase t ms')     (* [properties.__dict__] *)
          | PDict d => Ok (d, PDict)
          | _ => Err AttributeError                          (* [.items()] *)
          end in
        let* '(d', st1) := process_properties_dict a check_values d current_object st in
        Ok ({| nid := nid current_object; properties := Some (rebuild d');
               parameters := parameters current_object |}, st1)
    end in
  match parameters obj' with
  | None | Some PNone => Ok (obj', st')
  | Some _ => Ok (obj', st')                                  (* [pass] *)
  end.


(** ** function.py: [automate_function] *)

Inductive SanitizationMode : Type :=
| PREFIX_MATCHING
| PATTERN_MATCHING
| ANONYMIZATION.

(** [str(function_inputs.sanitization_mode)] *)
Definition mode_str (m : SanitizationMode) : str :=
  match m with
  | PREFIX_MATCHING => s2l "SanitizationMode.PREFIX_MATCHING"
  | PATTERN_MATCHING => s2l "SanitizationMode.PATTERN_MATCHING"
  | ANONYMIZATION => s2l "SanitizationMode.ANONYMIZATION"
  end.

Record FunctionInputs := {
  sanitization_mode : SanitizationMode;
  parameter_input : str;
  strict_mode : bool
}.

(** What the automation context hands back: the traversal sequence of the
    received version, the trigger model's name, and the result
    [(model_id, version_id)] of [create_new_version_in_project]. *)
Record world := {
  traversal : list node;
  trigger_model_name : str;
  new_version : str * option str
}.

(** Calls made during a run, in order. [EvReport] is the call of
    [action.report]; [EvAttach] is the [attach_info_to_objects] it makes,
    with the set of affected parameter names. [EvRaise] ends a run left by
    an exception. *)
Inductive event : Type :=
| EvMarkFailed (msg : str)
| EvMarkSuccess (msg : str)
| EvReceiveVersion
| EvGetModel
| EvReport
| EvAttach (category : str) (object_ids : list (option str)) (names : list pyval)
| EvCommit (root : list node) (name message : str)
| EvSetView (view : str)
| EvRaise (e : exc).

Definition MSG_NO_PREFIX : str := s2l "No parameter prefix has been set for PREFIX_MATCHING mode.".
Definition MSG_NO_PATTERN : str := s2l "No parameter pattern has been set for PATTERN_MATCHING mode.".
Definition MSG_NO_CHANGES : str := s2l "No parameters were processed.".
Definition MSG_COMMIT_FAILED : str := s2l "Failed to create a new version.".

(** Action selection: [inl msg] when the run is marked failed. *)
Definition select_action (fi : FunctionInputs) : str + (ParameterAction * bool) :=
  match sanitization_mode fi with
  | PREFIX_MATCHING =>
      if is_nil (parameter_input fi) then inl MSG_NO_PREFIX
      else inr (RemovalAction (PrefixMatcher (parameter_input fi) (strict_mode fi)), false)
  | PATTERN_MATCHING =>
      if is_nil (parameter_input fi) then inl MSG_NO_PATTERN
      else inr (RemovalAction (PatternMatcher (parameter_input fi) (strict_mode fi)), false)
  | ANONYMIZATION => inr (AnonymizationAction, true)
  end.

(** Hashable Python values (a [dict] is not). *)
Definition hashable (v : pyval) : bool :=
  match v with PDict _ => false | _ => true end.

Definition pyval_eqb_str (a b : pyval) : bool :=
  match a, b with
  | PStr x, PStr y => str_eqb x y
  | _, _ => false
  end.

(** [set(...)] of the affected names, in first-occurrence order. *)
Fixpoint dedup (l : list pyval) : list pyval :=
  match l with
  | [] => []
  | x :: l' => let r := dedup l' in
               if existsb (pyval_eqb_str x) r then r else x :: r
  end.

(** [report]: no call when nothing was affected; the removal report joins
    the names with [", "] (strings only), both build a set (hashable only). *)
Definition report (a : ParameterAction) (st : action_state) : result (list event) :=
  match affected_parameters st with
  | [] => Ok []
  | m =>
      let names := flat_map snd m in
      if negb (forallb hashable names) then Err TypeError else
      let ids := map fst m in
      match a with
      | RemovalAction _ =>
          if negb (forallb (fun v => match v with PStr _ => true | _ => false end) names)
          then Err TypeError
          else Ok [EvAttach (s2l "Removed_Parameters") ids (dedup names)]
      | AnonymizationAction => Ok [EvAttach (s2l "Anonymized_Parameters") ids (dedup names)]
      end
  end.

Fixpoint traverse (a : ParameterAction) (check_values : bool) (nodes : list node)
    (st : walker_state) : result (list node * walker_state) :=
  match nodes with
  | [] => Ok ([], st)
  | n :: rest =>
      let* '(n', st1) := process_context a check_values n st in
      let* '(rest', st2) := traverse a check_values rest st1 in
      Ok (n' :: rest', st2)
  end.

Definition walker_state0 : walker_state :=
  {| processed_objects := []; wact := action_state0 |}.

Definition success_message (fi : FunctionInputs) : str :=
  s2l "Parameters processed successfully with shield function " ++ mode_str (sanitization_mode fi)
  ++ (if strict_mode fi then s2l " running in strict mode" else []) ++ s2l ".".

Definition automate_function (fi : FunctionInputs) (w : world) : list event :=
  match select_action fi with
  | inl msg => [EvMarkFailed msg]
  | inr (action, check_values) =>
      EvReceiveVersion :: EvGetModel ::
      match traverse action check_values (traversal w) walker_state0 with
      | Err e => [EvRaise e]
      | Ok (root', st) =>
          match processed_objects st with
          | [] => [EvMarkSuccess MSG_NO_CHANGES]
          | _ :: _ =>
              EvReport ::
              match report action (wact st) with
              | Err e => [EvRaise e]
              | Ok attach =>
                  attach ++
                  EvCommit root' (s2l "processed/" ++ trigger_model_name w) (s2l "Processed Parameters") ::
                  match snd (new_version w) with
                  | None | Some [] => [EvMarkFailed MSG_COMMIT_FAILED]
                  | Some vid =>
                      [EvSetView (fst (new_version w) ++ "@"%char :: vid);
                       EvMarkSuccess (success_message fi)]
                  end
              end
          end
      end
  end.

(** * Properties *)

(** ** Basic facts *)

Lemma ascii_eqb_refl_l (c : ascii) : ascii_eqb c c = true.
Proof. apply Ascii.eqb_refl. Qed.

Lemma str_eqb_eq (a b : str) : str_eqb a b = true <-> a = b.
Proof.
  revert b; induction a as [|x a IH]; intros [|y b]; simpl; try (split; congruence).
  rewrite andb_true_iff, IH; unfold ascii_eqb; rewrite Ascii.eqb_eq.
  split; [intros [-> ->]; reflexivity | intros H; injection H; auto].
Qed.

Lemma str_eqb_refl (a : str) : str_eqb a a = true.
Proof. apply str_eqb_eq; reflexivity. Qed.

Lemma opt_str_eqb_eq (a b : option str) : opt_str_eqb a b = true <-> a = b.
Proof.
  destruct a, b; simpl; try (split; congruence).
  rewrite str_eqb_eq; split; congruence.
Qed.

Lemma set_add_In (s : list (option str)) (x : option str) : In x (set_add s x).
Proof.
  unfold set_add; destruct (existsb (opt_str_eqb x) s) eqn:E.
  - apply existsb_exists in E as [y [Hy Heq]].
    apply opt_str_eqb_eq in Heq; subst; exact Hy.
  - apply in_or_app; right; left; reflexivity.
Qed.

Lemma dd_get_append_same (m : list (option str * list pyval)) (k : option str) (v : pyval) :
  dd_get (dd_append m k v) k = dd_get m k ++ [v].
Proof.
  induction m as [|[k' vs] m IH]; simpl.
  - rewrite (proj2 (opt_str_eqb_eq k k) eq_refl); reflexivity.
  - destruct (opt_str_eqb k' k) eqn:E; simpl; rewrite E; auto.
Qed.

Lemma dd_get_append_other (m : list (option str * list pyval)) (k k2 : option str) (v : pyval) :
  k2 <> k -> dd_get (dd_append m k v) k2 = dd_get m k2.
Proof.
  intros Hne; induction m as [|[k' vs] m IH]; simpl.
  - destruct (opt_str_eqb k k2) eqn:E; [apply opt_str_eqb_eq in E; congruence | reflexivity].
  - destruct (opt_str_eqb k' k) eqn:E; simpl.
    + apply opt_str_eqb_eq in E; subst k'.
      destruct (opt_str_eqb k k2) eqn:E2; [apply opt_str_eqb_eq in E2; congruence | reflexivity].
    + destruct (opt_str_eqb k' k2); auto.
Qed.

(** ** The walker on the example of the spec *)

Definition param_leaf (name value : string) : pyval :=
  PDict [(s2l "name", PStr (s2l name)); (s2l "value", PStr (s2l value))].

(** [{"Foo": {"name":"Foo_Bar","value":"x"}, "nested": {"Baz": {"name":"Baz","value":"y"}}}] *)
Definition example_properties : dict :=
  [(s2l "Foo", param_leaf "Foo_Bar" "x");
   (s2l "nested", PDict [(s2l "Baz", param_leaf "Baz" "y")])].

Definition example_properties_after : dict :=
  [(s2l "nested", PDict [(s2l "Baz", param_leaf "Baz" "y")])].

(** C1: walking the example mapping with a prefix-removal action for
    ["Foo_"] (strict or not) removes exactly the top-level key ["Foo"],
    leaves the nested ["Baz"] leaf as it is, and the node's id is in
    [processed_objects] afterwards, whatever the node's id, its other
    attributes and the walker state before the call. *)
Theorem walker_example_removes_only_foo :
  forall (i : option str) (params : option pyval) (strict : bool) (st : walker_state),
    exists st',
      process_context (RemovalAction (PrefixMatcher (s2l "Foo_") strict)) false
        {| nid := i; properties := Some (PDict example_properties); parameters := params |} st
      = Ok ({| nid := i; properties := Some (PDict example_properties_after); parameters := params |}, st')
      /\ In i (processed_objects st').
Proof.
  intros i params strict st.
  destruct strict; cbn.
  - destruct params as [[]|]; eexists; (split; [reflexivity | apply set_add_In]).
  - destruct params as [[]|]; eexists; (split; [reflexivity | apply set_add_In]).
Qed.

(** C2: [RemovalAction.apply] never raises: for every parameter dict,
    parent node, container (a dict, a [Base] object or anything else) and
    key it returns normally, and the parameter's name
    ([parameter.get("name", key)]) is appended under the parent's id in
    [affected_parameters], other ids untouched, whether or not anything was
    removed from the container. *)
Theorem removal_apply_total_and_records :
  forall (m : ParameterMatcher) (parameter : dict) (parent : node) (container : pyval)
         (key : str) (st : action_state),
    exists container' st',
      apply (RemovalAction m) parameter parent container key st = Ok (parameter, container', st')
      /\ dd_get (affected_parameters st') (nid parent)
         = dd_get (affected_parameters st) (nid parent)
           ++ [dict_get_or parameter (s2l "name") (PStr key)]
      /\ (forall k, k <> nid parent ->
            dd_get (affected_parameters st') k = dd_get (affected_parameters st) k).
Proof.
  intros m parameter parent container key st.
  unfold apply, removal_apply.
  assert (Hrec : forall c' : pyval, exists (container' : pyval) (st' : action_state),
             @Ok (dict * pyval * action_state)
               (parameter, c', record_affected st (nid parent)
                                  (dict_get_or parameter (s2l "name") (PStr key)))
             = Ok (parameter, container', st')
             /\ dd_get (affected_parameters st') (nid parent)
                = dd_get (affected_parameters st) (nid parent)
                  ++ [dict_get_or parameter (s2l "name") (PStr key)]
             /\ (forall k, k <> nid parent ->
                   dd_get (affected_parameters st') k = dd_get (affected_parameters st) k)).
  { intros c'; do 2 eexists; split; [reflexivity|]; cbn [record_affected affected_parameters].
    split; [apply dd_get_append_same | intros k Hk; apply dd_get_append_other; exact Hk]. }
  destruct container as [s|n| |d|t ms]; cbn [bind]; try apply Hrec.
  unfold base_remove, try_except.
  destruct (dict_has ms key); cbn [bind]; apply Hrec.
Qed.

(** ** The regex engine *)

Lemma in_prepend (c1 : str) (l : list (str * str)) (c t : str) :
  In (c, t) (map (prepend c1) l) -> exists c2, In (c2, t) l /\ c = c1 ++ c2.
Proof.
  intros H; apply in_map_iff in H as [[c2 t2] [Heq Hin]].
  cbn in Heq; injection Heq as <- <-; eauto.
Qed.

(** Every match splits the subject into consumed part and rest. *)
Lemma ends_app (r : re) (ic b : bool) (s c t : str) :
  In (c, t) (ends r ic b s) -> c ++ t = s.
Proof.
  revert ic b s c t; induction r as [a| |neg items| | | |r1 IH1 r2 IH2|r1 IH1 r2 IH2|r1 IH];
    intros ic b s c t H; cbn [ends] in H.
  - destruct s as [|x s']; cbn in H; [destruct H|]; destruct (chr_eq ic a x); [|destruct H].
    destruct H as [H|[]]; injection H as <- <-; reflexivity.
  - destruct s as [|x s']; cbn in H; [destruct H|]; destruct (ascii_eqb x "010"); [destruct H|].
    destruct H as [H|[]]; injection H as <- <-; reflexivity.
  - destruct s as [|x s']; cbn in H; [destruct H|]; destruct (set_match ic neg items x); [|destruct H].
    destruct H as [H|[]]; injection H as <- <-; reflexivity.
  - destruct b; [destruct H as [H|[]]; injection H as <- <-; reflexivity | destruct H].
  - destruct s as [|x [|y s']]; cbn in H.
    + destruct H as [H|[]]; injection H as <- <-; reflexivity.
    + destruct (ascii_eqb x "010"); [destruct H as [H|[]]; injection H as <- <-; reflexivity | destruct H].
    + destruct H.
  - destruct H as [H|[]]; injection H as <- <-; reflexivity.
  - apply in_flat_map in H as [[c1 t1] [H1 H2]].
    apply in_prepend in H2 as [c2 [H2 ->]].
    rewrite <- app_assoc, (IH2 _ _ _ _ _ H2); exact (IH1 _ _ _ _ _ H1).
  - apply in_app_or in H as [H|H]; eauto.
  - revert H; generalize (S (List.length s)) as n; intros n; revert b s c t.
    induction n as [|n IHn]; intros b s c t H; cbn [star_ends] in H.
    + destruct H as [H|[]]; injection H as <- <-; reflexivity.
    + apply in_app_or in H as [H|[H|[]]].
      * apply in_flat_map in H as [[c1 t1] [H1 H2]].
        destruct (is_nil c1); [destruct H2|].
        apply in_prepend in H2 as [c2 [H2 ->]].
        rewrite <- app_assoc, (IHn _ _ _ _ H2); exact (IH _ _ _ _ _ H1).
      * injection H as <- <-; reflexivity.
Qed.

Lemma ends_cat_inv (r1 r2 : re) (ic b : bool) (s c t : str) :
  In (c, t) (ends (RCat r1 r2) ic b s) ->
  exists c1 t1 c2, In (c1, t1) (ends r1 ic b s)
                   /\ In (c2, t) (ends r2 ic (b && is_nil c1) t1) /\ c = c1 ++ c2.
Proof.
  intros H; cbn [ends] in H.
  apply in_flat_map in H as [[c1 t1] [H1 H2]].
  apply in_prepend in H2 as [c2 [H2 ->]].
  exists c1, t1, c2; repeat split; assumption.
Qed.

Lemma ends_set_inv (neg : bool) (items : list (ascii * ascii)) (ic b : bool) (s c t : str) :
  In (c, t) (ends (RSet neg items) ic b s) ->
  exists x, c = [x] /\ set_match ic neg items x = true.
Proof.
  intros H; cbn [ends] in H.
  destruct s as [|x s']; [destruct H|].
  destruct (set_match ic neg items x) eqn:E; [|destruct H].
  destruct H as [H|[]]; injection H as <- <-; eauto.
Qed.

Lemma ends_chr_inv (a : ascii) (b : bool) (s c t : str) :
  In (c, t) (ends (RChr a) false b s) -> c = [a].
Proof.
  intros H; cbn [ends] in H.
  destruct s as [|x s']; [destruct H|].
  unfold chr_eq in H; destruct (ascii_eqb a x) eqn:E; [|destruct H].
  destruct H as [H|[]]; injection H as <- <-.
  unfold ascii_eqb in E; apply Ascii.eqb_eq in E; subst; reflexivity.
Qed.

(** What a starred class consumes is made of class members. *)
Lemma ends_star_set (neg : bool) (items : list (ascii * ascii)) (ic b : bool) (s c t : str) :
  In (c, t) (ends (RStar (RSet neg items)) ic b s) ->
  Forall (fun x => set_match ic neg items x = true) c.
Proof.
  cbn [ends]; generalize (S (List.length s)) as n; intros n; revert b s c t.
  induction n as [|n IHn]; intros b s c t H; cbn [star_ends] in H.
  - destruct H as [H|[]]; injection H as <- <-; constructor.
  - apply in_app_or in H as [H|[H|[]]].
    + apply in_flat_map in H as [[c1 t1] [H1 H2]].
      destruct (is_nil c1); [destruct H2|].
      apply in_prepend in H2 as [c2 [H2 ->]].
      apply Forall_app; split.
      * destruct s as [|x s']; [destruct H1|].
        destruct (set_match ic neg items x) eqn:E; [|destruct H1].
        destruct H1 as [H1|[]]; injection H1 as <- <-; constructor; [exact E | constructor].
      * exact (IHn _ _ _ _ H2).
    + injection H as <- <-; constructor.
Qed.

Lemma sub_loop_ext (fuel : nat) (r : re) (ic : bool) (f g : str -> result str) (b : bool) (s : str) :
  (forall b' s' c t, In (c, t) (ends r ic b' s') -> f c = g c) ->
  sub_loop fuel r ic f b s = sub_loop fuel r ic g b s.
Proof.
  intros Hfg; revert b s; induction fuel as [|n IH]; intros b s; cbn [sub_loop]; [reflexivity|].
  destruct (ends r ic b s) as [|[c t] rest] eqn:E.
  - destruct s; [reflexivity|]; rewrite IH; reflexivity.
  - rewrite (Hfg b s c t) by (rewrite E; left; reflexivity).
    destruct (g c); cbn [bind]; [|reflexivity].
    destruct c; [destruct s|]; rewrite ?IH; reflexivity.
Qed.

(** ** EmailMatcher *)

Definition email_local_items : list (ascii * ascii) :=
  [("a", "z"); ("A", "Z"); ("0", "9"); (".", "."); ("_", "_"); ("%", "%"); ("+", "+"); ("-", "-")]%char.
Definition email_domain_items : list (ascii * ascii) :=
  [("a", "z"); ("A", "Z"); ("0", "9"); (".", "."); ("-", "-")]%char.
Definition alpha_items : list (ascii * ascii) := [("a", "z"); ("A", "Z")]%char.

(** The compiled [EMAIL_PATTERN]. *)
Definition email_ast : re :=
  RCat (RCat (RCat (RCat (RCat REps (RPlus (RSet false email_local_items))) (RChr "@"))
                   (RPlus (RSet false email_domain_items)))
             (RChr "."))
       (RCat (rep (RSet false alpha_items) 2) (RStar (RSet false alpha_items))).

Lemma email_compiles : re_compile EMAIL_PATTERN = Some email_ast.
Proof. vm_compute; reflexivity. Qed.

Lemma email_match_shape (b : bool) (s c t : str) :
  In (c, t) (ends email_ast false b s) ->
  exists x local' domain,
    c = (x :: local') ++ "@"%char :: domain
    /\ Forall (fun y => set_match false false email_local_items y = true) (x :: local').
Proof.
  intros H; unfold email_ast in H.
  apply ends_cat_inv in H as [c5 [t5 [c6 [H5 [_ ->]]]]].
  apply ends_cat_inv in H5 as [c4 [t4 [cdot [H4 [_ ->]]]]].
  apply ends_cat_inv in H4 as [c3 [t3 [cdom [H3 [_ ->]]]]].
  apply ends_cat_inv in H3 as [c2 [t2 [cat [H2 [Hat ->]]]]].
  apply ends_cat_inv in H2 as [c1 [t1 [cp [H1 [Hp ->]]]]].
  cbn [ends] in H1; destruct H1 as [H1|[]]; injection H1 as <- <-.
  apply ends_chr_inv in Hat as ->.
  unfold RPlus in Hp; apply ends_cat_inv in Hp as [cx [tx [cst [Hx [Hst ->]]]]].
  apply ends_set_inv in Hx as [x [-> Hxin]].
  exists x, cst, (cdom ++ cdot ++ c6); split.
  - cbn; rewrite <- !app_assoc; reflexivity.
  - constructor; [exact Hxin | exact (ends_star_set _ _ _ _ _ _ _ Hst)].
Qed.

Lemma email_local_char (y : ascii) :
  set_match false false email_local_items y = true -> y <> "@"%char /\ y <> "*"%char.
Proof. intros H; split; intros ->; vm_compute in H; discriminate. Qed.

Lemma split_at_sign_app (l d : str) :
  Forall (fun y => y <> "@"%char) l -> split_at_sign (l ++ "@"%char :: d) = Some (l, d).
Proof.
  induction 1 as [|y l Hy Hl IH]; cbn [split_at_sign app].
  - rewrite ascii_eqb_refl_l; reflexivity.
  - destruct (ascii_eqb y "@") eqn:E; [unfold ascii_eqb in E; apply Ascii.eqb_eq in E; contradiction|].
    rewrite IH; reflexivity.
Qed.

Lemma repeat_c_length (c : ascii) (n : nat) : List.length (repeat_c c n) = n.
Proof. induction n; cbn; auto. Qed.

Lemma anonymize_local_length (local : str) :
  local <> [] -> List.length (anonymize_local local) = List.length local.
Proof.
  intros Hne; unfold anonymize_local.
  destruct (2 <? List.length local) eqn:E1.
  - apply Nat.ltb_lt in E1; cbn [List.length app]; rewrite length_app, repeat_c_length; cbn; lia.
  - destruct (List.length local =? 2) eqn:E2; [apply Nat.eqb_eq in E2; rewrite E2; reflexivity|].
    apply Nat.ltb_ge in E1; apply Nat.eqb_neq in E2.
    destruct local; [congruence|]; cbn in *; lia.
Qed.

Lemma anonymize_local_star (local : str) : In "*"%char (anonymize_local local).
Proof.
  unfold anonymize_local.
  destruct (2 <? List.length local) eqn:E1.
  - apply Nat.ltb_lt in E1; cbn [app In]; right; apply in_or_app; left.
    destruct (List.length local - 2) eqn:E; [lia|]; left; reflexivity.
  - destruct (List.length local =? 2); cbn [In]; [right; left; reflexivity | left; reflexivity].
Qed.

(** Every email match is rewritten by [replace_email] into a string of the
    same length that differs from it. *)
Lemma replace_email_on_match (b : bool) (s c t : str) :
  In (c, t) (ends email_ast false b s) ->
  exists x local' domain,
    c = (x :: local') ++ "@"%char :: domain
    /\ split_at_sign c = Some (x :: local', domain)
    /\ replace_email c = Ok (anonymize_local (x :: local') ++ "@"%char :: domain)
    /\ ~ In "*"%char (x :: local').
Proof.
  intros H; destruct (email_match_shape _ _ _ _ H) as [x [local' [domain [-> Hall]]]].
  assert (Hs : split_at_sign ((x :: local') ++ "@"%char :: domain) = Some (x :: local', domain)).
  { rewrite split_at_sign_app; [reflexivity|].
    eapply Forall_impl; [|exact Hall]; intros y Hy; apply (email_local_char y Hy). }
  exists x, local', domain; split; [reflexivity|]; split; [exact Hs|]; split.
  - unfold replace_email; rewrite Hs; reflexivity.
  - intros Hin; rewrite Forall_forall in Hall; apply (email_local_char _ (Hall _ Hin)); reflexivity.
Qed.

(** The masking rule in the words of the spec: the local part of length L
    becomes first and last character around L-2 asterisks when L > 2, the
    first character and one asterisk when L = 2, one asterisk when L <= 1;
    the domain is kept. *)
Definition mask_local_spec (local : str) : str :=
  match local with
  | [] | [_] => ["*"%char]
  | [a; _] => [a; "*"%char]
  | a :: rest => a :: repeat_c "*" (List.length local - 2) ++ [last rest "*"%char]
  end.

Definition mask_email_spec (email : str) : str :=
  match split_at_sign email with
  | Some (local, domain) => mask_local_spec local ++ "@"%char :: domain
  | None => email
  end.

Lemma anonymize_local_spec (local : str) : anonymize_local local = mask_local_spec local.
Proof. destruct local as [|a [|b [|c rest]]]; reflexivity. Qed.

(** C4: for every string, [anonymize_email] is the global left-to-right
    substitution of the email matches, each rewritten by the rule above
    with its domain kept; and the three examples of the spec. *)
Theorem anonymize_email_rule :
  (forall v : str,
      anonymize_email (PStr v)
      = (let* w := re_sub email_ast false (fun e => Ok (mask_email_spec e)) v in Ok (PStr w)))
  /\ anonymize_email (PStr (s2l "e@example.com")) = Ok (PStr (s2l "*@example.com"))
  /\ anonymize_email (PStr (s2l "ab@x.io")) = Ok (PStr (s2l "a*@x.io"))
  /\ anonymize_email (PStr (s2l "email@example.com")) = Ok (PStr (s2l "e***l@example.com")).
Proof.
  split; [|vm_compute; repeat split; reflexivity].
  intros v; unfold anonymize_email; rewrite email_compiles; unfold re_sub.
  rewrite (sub_loop_ext _ _ _ replace_email (fun e => Ok (mask_email_spec e))); [reflexivity|].
  intros b s c t H.
  destruct (replace_email_on_match _ _ _ _ H) as [x [l [d [-> [Hs [Hr _]]]]]].
  rewrite Hr; unfold mask_email_spec; rewrite Hs, anonymize_local_spec; reflexivity.
Qed.

(** C9: masking is a function of its input (two evaluations agree), and
    it is not idempotent: masking ["email@example.com"] twice masks the
    last character of the local part once more. *)
Theorem anonymize_email_deterministic_not_idempotent :
  (forall v r1 r2, anonymize_email v = r1 -> anonymize_email v = r2 -> r1 = r2)
  /\ exists v w w', anonymize_email v = Ok w /\ anonymize_email w = Ok w' /\ w' <> w.
Proof.
  split; [intros v r1 r2 <- <-; reflexivity|].
  exists (PStr (s2l "email@example.com")), (PStr (s2l "e***l@example.com")),
         (PStr (s2l "e****@example.com")).
  split; [vm_compute; reflexivity|]; split; [vm_compute; reflexivity|].
  discriminate.
Qed.

Lemma app_neq_same_length (a b x y : str) :
  List.length a = List.length b -> a <> b -> a ++ x <> b ++ y.
Proof.
  revert b; induction a as [|p a IH]; intros [|q b] Hl Hn He; cbn in *; try congruence.
  injection He as -> He; apply (IH b); [lia | intros ->; congruence | exact He].
Qed.

Lemma search_false_rest (r : re) (ic b : bool) (x : ascii) (s' : str) :
  ends r ic b (x :: s') = [] -> search r ic b (x :: s') = true -> search r ic false s' = true.
Proof. intros E H; cbn [search] in H; rewrite E in H; exact H. Qed.

(** [re.sub] with a replacement that changes every match while keeping its
    length: the result has the subject's length, and differs from it as soon
    as [re.search] finds a match. *)
Lemma sub_loop_length_change (r : re) (ic : bool) (f : str -> result str) :
  (forall b' s' c t, In (c, t) (ends r ic b' s') ->
     exists c', f c = Ok c' /\ List.length c' = List.length c /\ c' <> c) ->
  forall fuel b s, List.length s < fuel ->
    exists w, sub_loop fuel r ic f b s = Ok w /\ List.length w = List.length s
              /\ (search r ic b s = true -> w <> s).
Proof.
  intros Hf fuel; induction fuel as [|n IH]; intros b s Hlen; [lia|].
  cbn [sub_loop search].
  destruct (ends r ic b s) as [|[c t] rest] eqn:E.
  - destruct s as [|x s'].
    + exists []; split; [reflexivity|]; split; [reflexivity|]; intros H; cbn in H; rewrite E in H; discriminate H.
    + cbn in Hlen; destruct (IH false s') as [w [Hw [Hl Hs]]]; [lia|].
      rewrite Hw; exists (x :: w); split; [reflexivity|]; split; [cbn; congruence|].
      intros Hse He; injection He as He; exact (Hs (search_false_rest _ _ _ _ _ E Hse) He).
  - assert (Hin : In (c, t) (ends r ic b s)) by (rewrite E; left; reflexivity).
    destruct (Hf _ _ _ _ Hin) as [c' [Hc [Hcl Hcn]]]; rewrite Hc; cbn [bind].
    pose proof (ends_app _ _ _ _ _ _ Hin) as Happ.
    destruct c as [|y c0]; [destruct c'; cbn in Hcl; [congruence | discriminate]|].
    destruct (IH false t) as [w [Hw [Hl _]]]; [subst s; rewrite length_app in Hlen; cbn in Hlen; lia|].
    rewrite Hw; exists (c' ++ w); cbn [bind]; repeat split.
    + rewrite <- Happ, !length_app; lia.
    + intros _; rewrite <- Happ; apply app_neq_same_length; assumption.
Qed.

Lemma dict_get_set_same (d : dict) (k : str) (v : pyval) : dict_get (dict_set d k v) k = Some v.
Proof.
  induction d as [|[k' v'] d IH]; cbn; [rewrite str_eqb_refl; reflexivity|].
  destruct (str_eqb k' k) eqn:E; cbn; [rewrite str_eqb_refl; reflexivity | rewrite E; exact IH].
Qed.

Lemma anonymize_email_changes (v : str) :
  contains_email (PStr v) = Ok true ->
  exists w, anonymize_email (PStr v) = Ok (PStr w) /\ w <> v /\ List.length w = List.length v.
Proof.
  unfold contains_email, anonymize_email; rewrite email_compiles; intros Hc.
  injection Hc as Hc.
  assert (Hf : forall b' s' c t, In (c, t) (ends email_ast false b' s') ->
     exists c', replace_email c = Ok c' /\ List.length c' = List.length c /\ c' <> c).
  { intros b' s' c t Hin.
    destruct (replace_email_on_match _ _ _ _ Hin) as [x [l [d [-> [_ [Hr Hstar]]]]]].
    exists (anonymize_local (x :: l) ++ "@"%char :: d); split; [exact Hr|].
    assert (Hlen : List.length (anonymize_local (x :: l)) = List.length (x :: l))
      by (apply anonymize_local_length; discriminate).
    split; [rewrite !length_app, Hlen; reflexivity|].
    apply app_neq_same_length; [exact Hlen|].
    intros He; apply Hstar; rewrite <- He; apply anonymize_local_star. }
  destruct (sub_loop_length_change email_ast false replace_email Hf (S (List.length v)) true v)
    as [w [Hw [Hl Hn]]]; [lia|].
  exists w; unfold re_sub; rewrite Hw; cbn [bind]; auto.
Qed.

(** C10: when the value of a string parameter contains an email, masking
    changes it and keeps its length; so when the anonymization check
    succeeds on the value of a parameter, [apply] always writes a new value
    into it, records the parameter's name under the node's id and counts
    it: the branch that skips an unchanged value is not reached. *)
Theorem anonymization_check_implies_change :
  forall v : str,
    check AnonymizationAction (PStr v) = Ok true ->
    (exists w, anonymize_email (PStr v) = Ok (PStr w) /\ w <> v /\ List.length w = List.length v)
    /\ (forall (parameter : dict) (parent : node) (container : pyval) (key : str) (st : action_state),
          dict_get parameter (s2l "value") = Some (PStr v) ->
          exists w parameter' container' st',
            apply AnonymizationAction parameter parent container key st
              = Ok (parameter', container', st')
            /\ w <> v
            /\ dict_get parameter' (s2l "value") = Some (PStr w)
            /\ dd_get (affected_parameters st') (nid parent)
               = dd_get (affected_parameters st) (nid parent)
                 ++ [dict_get_or parameter (s2l "name") (PStr key)]
            /\ anonymized_count st' = S (anonymized_count st)).
Proof.
  intros v Hc; cbn [check] in Hc.
  destruct (anonymize_email_changes v Hc) as [w [Hw [Hn Hl]]].
  split; [exists w; auto|].
  intros parameter parent container key st Hv.
  unfold apply, anonymization_apply; rewrite Hv, Hw; cbn [bind].
  destruct (str_eqb w v) eqn:E; [apply str_eqb_eq in E; contradiction|].
  do 4 eexists; split; [reflexivity|].
  split; [exact Hn|]; split; [apply dict_get_set_same|]; split; [|reflexivity].
  cbn [affected_parameters record_affected]; apply dd_get_append_same.
Qed.

Lemma anonymization_check_implies_change_witness :
  check AnonymizationAction (PStr (s2l "mail: jo@site.org")) = Ok true
  /\ exists w, anonymize_email (PStr (s2l "mail: jo@site.org")) = Ok (PStr w)
               /\ w <> s2l "mail: jo@site.org"
               /\ List.length w = List.length (s2l "mail: jo@site.org").
Proof.
  split; [vm_compute; reflexivity|].
  apply (anonymization_check_implies_change (s2l "mail: jo@site.org")).
  vm_compute; reflexivity.
Defined.

(** ** PatternChecker *)

(** The regex test as the spec words it: starts with ["/"] and, once a
    single trailing ["i"] is stripped, ends with ["/"]. *)
Definition strip_one_i (s : str) : str :=
  match rev s with
  | c :: r => if ascii_eqb c "i" then rev r else s
  | [] => s
  end.

Definition is_regex_spec (pattern : str) : bool :=
  startswith pattern (s2l "/") && endswith (strip_one_i pattern) (s2l "/").

(** The examples of the spec on regex patterns hold. *)
Example pattern_regex_examples :
  (forall strict, matches (PatternMatcher (s2l "/^foo_\d+$/i") strict) (PStr (s2l "FOO_123")) = Ok true)
  /\ matches (PatternMatcher (s2l "/^foo_\d+$/") false) (PStr (s2l "FOO_123")) = Ok true
  /\ matches (PatternMatcher (s2l "/^foo_\d+$/") true) (PStr (s2l "FOO_123")) = Ok false.
Proof. split; [intros []; vm_compute; reflexivity | split; vm_compute; reflexivity]. Qed.

(** C3 (evaluated at the failing input): [pattern.rstrip("i")] removes
    every trailing ["i"], so ["/abc/ii"] is taken as a regex with body
    ["abc/i"] although stripping one trailing ["i"] leaves ["/abc/i"],
    which does not end with ["/"]; the name ["abc/i"] then matches, while
    the glob ["/abc/ii"] would not match it. *)
Theorem pattern_checker_rstrip_all_i :
  is_regex_spec (s2l "/abc/ii") = false
  /\ (exists pc, PatternChecker_init (s2l "/abc/ii") true = Ok pc
                 /\ pc_is_regex pc = true /\ pc_pattern pc = s2l "abc/i")
  /\ matches (PatternMatcher (s2l "/abc/ii") true) (PStr (s2l "abc/i")) = Ok true
  /\ fnmatchcase (PStr (s2l "abc/i")) (s2l "/abc/ii") = Ok false.
Proof.
  split; [vm_compute; reflexivity|].
  split; [eexists; split; [vm_compute; reflexivity | split; reflexivity]|].
  split; vm_compute; reflexivity.
Qed.

(** C8 (counterexample): the pattern ["/"] is accepted by the action
    selection and by [PatternChecker]; no configuration error is raised and
    the name ["x"] matches. *)
Lemma degenerate_pattern_no_error :
  select_action {| sanitization_mode := PATTERN_MATCHING; parameter_input := s2l "/";
                   strict_mode := true |}
  = inr (RemovalAction (PatternMatcher (s2l "/") true), false)
  /\ PatternChecker_init (s2l "/") true
     = Ok {| pc_is_regex := true; pc_ignore_case := false; pc_regex := Some REps; pc_pattern := [] |}
  /\ matches (PatternMatcher (s2l "/") true) (PStr (s2l "x")) = Ok true.
Proof. split; [reflexivity | split; vm_compute; reflexivity]. Qed.

(** C8 (amended): the patterns ["/"] and ["//"] are accepted without error
    in either strict setting: they become a regex with an empty body, and
    the matcher matches every parameter name. *)
Theorem degenerate_pattern_matches_everything :
  forall (strict : bool) (name : str),
    (exists a cv, select_action {| sanitization_mode := PATTERN_MATCHING;
                                   parameter_input := s2l "/"; strict_mode := strict |}
                  = inr (a, cv))
    /\ (exists a cv, select_action {| sanitization_mode := PATTERN_MATCHING;
                                      parameter_input := s2l "//"; strict_mode := strict |}
                     = inr (a, cv))
    /\ matches (PatternMatcher (s2l "/") strict) (PStr name) = Ok true
    /\ matches (PatternMatcher (s2l "//") strict) (PStr name) = Ok true.
Proof.
  intros strict name.
  split; [do 2 eexists; reflexivity|]; split; [do 2 eexists; reflexivity|].
  destruct strict; split; destruct name; reflexivity.
Qed.

(** ** ParameterProcessor on the legacy collection *)

Definition revit_parameter (name value : string) : pyval :=
  PBase REVIT_PARAMETER_TYPE [(s2l "name", PStr (s2l name)); (s2l "value", PStr (s2l value))].

(** A node carrying only a legacy parameters collection with a parameter
    named ["Foo_Bar"]. *)
Definition legacy_node : node :=
  {| nid := Some (s2l "legacy");
     properties := None;
     parameters := Some (PBase (s2l "Base") [(s2l "FOO_BAR_PARAM", revit_parameter "Foo_Bar" "x")]) |}.

(** C7 (counterexample): [process_context] with a prefix-removal action
    for ["Foo_"] leaves that node and the walker state as they are: the
    matching legacy parameter is not removed and the node is not marked. *)
Lemma legacy_parameters_not_walked :
  process_context (RemovalAction (PrefixMatcher (s2l "Foo_") true)) false legacy_node walker_state0
  = Ok (legacy_node, walker_state0)
  /\ check (RemovalAction (PrefixMatcher (s2l "Foo_") true)) (PStr (s2l "Foo_Bar")) = Ok true.
Proof. split; vm_compute; reflexivity. Qed.

Lemma placeholder_branch (x : option pyval) (r : node * walker_state) :
  match x with
  | None | Some PNone => Ok r
  | Some _ => Ok r
  end = Ok r.
Proof. destruct x as [[]|]; reflexivity. Qed.

(** C7 (amended): [process_context] never changes a node's legacy
    [parameters] collection (its branch is a placeholder), and a node with
    no properties mapping comes back unchanged, with the walker state
    unchanged, whatever its legacy parameters are. *)
Theorem process_context_ignores_legacy_parameters :
  forall (a : ParameterAction) (cv : bool) (n : node) (st : walker_state),
    (forall n' st', process_context a cv n st = Ok (n', st') -> parameters n' = parameters n)
    /\ ((properties n = None \/ properties n = Some PNone) -> process_context a cv n st = Ok (n, st)).
Proof.
  intros a cv n st; split.
  - intros n' st' H; unfold process_context in H.
    destruct (properties n) as [p|] eqn:Ep.
    + destruct p as [s|k| |d|t ms]; cbn [bind] in H; try discriminate H.
      * destruct (parameters n) as [[]|] eqn:Epar; injection H as <- _; simpl; congruence.
      * destruct (process_properties_dict a cv d n st) as [[d' st1]|e]; cbn [bind] in H;
          [|discriminate H].
        destruct (parameters n) as [[]|] eqn:Epar; injection H as <- _; simpl; congruence.
      * destruct (process_properties_dict a cv ms n st) as [[d' st1]|e]; cbn [bind] in H;
          [|discriminate H].
        destruct (parameters n) as [[]|] eqn:Epar; injection H as <- _; simpl; congruence.
    + cbn [bind] in H; destruct (parameters n) as [[]|] eqn:Epar; injection H as <- _; simpl; congruence.
  - intros [Hp|Hp]; unfold process_context; rewrite Hp; cbn [bind]; apply placeholder_branch.
Qed.

Lemma process_context_ignores_legacy_parameters_witness :
  properties legacy_node = None
  /\ process_context (RemovalAction (PrefixMatcher (s2l "Foo_") true)) false legacy_node walker_state0
     = Ok (legacy_node, walker_state0).
Proof.
  split; [reflexivity|].
  apply (proj2 (process_context_ignores_legacy_parameters
                  (RemovalAction (PrefixMatcher (s2l "Foo_") true)) false legacy_node walker_state0)).
  left; reflexivity.
Defined.

Lemma anonymize_email_deterministic_not_idempotent_witness :
  anonymize_email (PStr (s2l "jo@site.org")) = anonymize_email (PStr (s2l "jo@site.org")).
Proof.
  exact (proj1 anonymize_email_deterministic_not_idempotent _ _ _ eq_refl eq_refl).
Defined.

(** ** The orchestrator *)

Definition is_report (e : event) : bool :=
  match e with EvReport => true | _ => false end.

Definition example_node : node :=
  {| nid := Some (s2l "n1"); properties := Some (PDict example_properties); parameters := None |}.

Definition example_world (vid : option str) : world :=
  {| traversal := [example_node]; trigger_model_name := s2l "main";
     new_version := (s2l "m1", vid) |}.

Definition prefix_inputs (p : string) : FunctionInputs :=
  {| sanitization_mode := PREFIX_MATCHING; parameter_input := s2l p; strict_mode := true |}.

(** The events of a successful [report] are attachments only. *)
Lemma report_only_attach (a : ParameterAction) (s : action_state) (l : list event) :
  report a s = Ok l -> forall e, In e l -> exists c i n, e = EvAttach c i n.
Proof.
  unfold report; intros H e Hin.
  destruct (affected_parameters s) as [|p m]; [injection H as <-; destruct Hin|].
  destruct (negb (forallb hashable (flat_map snd (p :: m)))); [discriminate H|].
  destruct a as [mt|].
  - destruct (negb _); [discriminate H|].
    injection H as <-; destruct Hin as [<-|[]]; eauto.
  - injection H as <-; destruct Hin as [<-|[]]; eauto.
Qed.

Lemma filter_report_attach (a : ParameterAction) (s : action_state) (l : list event) :
  report a s = Ok l -> filter is_report l = [].
Proof.
  intros H; pose proof (report_only_attach a s l H) as Hl; clear H.
  induction l as [|e l IH]; [reflexivity|].
  destruct (Hl e (or_introl eq_refl)) as [c [i [n ->]]]; cbn [filter is_report].
  apply IH; intros e' He'; apply Hl; right; exact He'.
Qed.

(** C5: when the traversal leaves [processed_objects] empty, the run is
    marked successful with the no-changes message right after receiving the
    version and fetching the model, and no commit is ever requested. *)
Theorem no_processed_no_commit :
  forall (fi : FunctionInputs) (w : world) (a : ParameterAction) (cv : bool)
         (root : list node) (st : walker_state),
    select_action fi = inr (a, cv) ->
    traverse a cv (traversal w) walker_state0 = Ok (root, st) ->
    processed_objects st = [] ->
    automate_function fi w = [EvReceiveVersion; EvGetModel; EvMarkSuccess MSG_NO_CHANGES]
    /\ (forall r n m, ~ In (EvCommit r n m) (automate_function fi w)).
Proof.
  intros fi w a cv root st Hsel Htr Hp.
  assert (E : automate_function fi w = [EvReceiveVersion; EvGetModel; EvMarkSuccess MSG_NO_CHANGES]).
  { unfold automate_function; rewrite Hsel, Htr, Hp; reflexivity. }
  split; [exact E|].
  intros r n m Hin; rewrite E in Hin.
  destruct Hin as [H|[H|[H|[]]]]; discriminate H.
Qed.

Lemma no_processed_no_commit_witness :
  automate_function (prefix_inputs "Zzz_") (example_world (Some (s2l "v1")))
  = [EvReceiveVersion; EvGetModel; EvMarkSuccess MSG_NO_CHANGES].
Proof.
  refine (proj1 (no_processed_no_commit (prefix_inputs "Zzz_") (example_world (Some (s2l "v1")))
                   (RemovalAction (PrefixMatcher (s2l "Zzz_") true)) false
                   [example_node] walker_state0 eq_refl _ eq_refl)).
  vm_compute; reflexivity.
Defined.

(** C6: when the traversal marks some node processed, the run calls
    [report] exactly once; every commit request comes after that call; the
    commit is requested whenever [report] returns; and when the commit
    yields no version id (None or empty), the run ends with
    [mark_run_failed], with no [mark_run_success] and no exception. *)
Theorem processed_report_then_commit :
  forall (fi : FunctionInputs) (w : world) (a : ParameterAction) (cv : bool)
         (root : list node) (st : walker_state),
    select_action fi = inr (a, cv) ->
    traverse a cv (traversal w) walker_state0 = Ok (root, st) ->
    processed_objects st <> [] ->
    List.length (filter is_report (automate_function fi w)) = 1
    /\ (forall pre r n m post,
          automate_function fi w = pre ++ EvCommit r n m :: post -> In EvReport pre)
    /\ (forall attach, report a (wact st) = Ok attach ->
          exists r n m, In (EvCommit r n m) (automate_function fi w))
    /\ (forall attach, report a (wact st) = Ok attach ->
          (snd (new_version w) = None \/ snd (new_version w) = Some []) ->
          automate_function fi w
          = EvReceiveVersion :: EvGetModel :: EvReport :: attach
            ++ [EvCommit root (s2l "processed/" ++ trigger_model_name w) (s2l "Processed Parameters");
                EvMarkFailed MSG_COMMIT_FAILED]
          /\ (forall msg, ~ In (EvMarkSuccess msg) (automate_function fi w))
          /\ (forall e, ~ In (EvRaise e) (automate_function fi w))).
Proof.
  intros fi w a cv root st Hsel Htr Hp.
  assert (E : automate_function fi w =
                EvReceiveVersion :: EvGetModel :: EvReport ::
                match report a (wact st) with
                | Err e => [EvRaise e]
                | Ok attach =>
                    attach ++
                    EvCommit root (s2l "processed/" ++ trigger_model_name w) (s2l "Processed Parameters") ::
                    match snd (new_version w) with
                    | None | Some [] => [EvMarkFailed MSG_COMMIT_FAILED]
                    | Some vid =>
                        [EvSetView (fst (new_version w) ++ "@"%char :: vid);
                         EvMarkSuccess (success_message fi)]
                    end
                end).
  { unfold automate_function; rewrite Hsel, Htr.
    destruct (processed_objects st); [congruence | reflexivity]. }
  rewrite E; split; [|split; [|split]].
  - cbn [filter is_report List.length].
    destruct (report a (wact st)) as [attach|e] eqn:Er; [|reflexivity].
    rewrite filter_app, (filter_report_attach _ _ _ Er); cbn.
    destruct (snd (new_version w)) as [[|c v]|]; reflexivity.
  - intros pre r n m post Hs.
    destruct pre as [|e1 [|e2 [|e3 pre]]]; cbn in Hs; try discriminate Hs.
    injection Hs as _ _ -> _; right; right; left; reflexivity.
  - intros attach Er; rewrite Er.
    do 3 eexists; right; right; right; apply in_or_app; right; left; reflexivity.
  - intros attach Er Hv; rewrite Er.
    assert (Et : match snd (new_version w) with
                 | None | Some [] => [EvMarkFailed MSG_COMMIT_FAILED]
                 | Some vid =>
                     [EvSetView (fst (new_version w) ++ "@"%char :: vid);
                      EvMarkSuccess (success_message fi)]
                 end = [EvMarkFailed MSG_COMMIT_FAILED]).
    { destruct Hv as [-> | ->]; reflexivity. }
    rewrite Et; split; [reflexivity|].
    pose proof (report_only_attach _ _ _ Er) as Ha.
    split.
    + intros msg Hin.
      destruct Hin as [H|[H|[H|Hin]]]; try discriminate H.
      apply in_app_or in Hin as [Hin|[H|[H|[]]]]; try discriminate H.
      destruct (Ha _ Hin) as [c [i [n' H]]]; discriminate H.
    + intros e Hin.
      destruct Hin as [H|[H|[H|Hin]]]; try discriminate H.
      apply in_app_or in Hin as [Hin|[H|[H|[]]]]; try discriminate H.
      destruct (Ha _ Hin) as [c [i [n' H]]]; discriminate H.
Qed.

Lemma processed_report_then_commit_witness :
  List.length (filter is_report (automate_function (prefix_inputs "Foo_") (example_world None))) = 1.
Proof.
  refine (proj1 (processed_report_then_commit (prefix_inputs "Foo_") (example_world None)
                   (RemovalAction (PrefixMatcher (s2l "Foo_") true)) false
                   [{| nid := Some (s2l "n1"); properties := Some (PDict example_properties_after);
                       parameters := None |}]
                   {| processed_objects := [Some (s2l "n1")];
                      wact := {| affected_parameters := [(Some (s2l "n1"), [PStr (s2l "Foo_Bar")])];
                                 anonymized_count := 0 |} |}
                   eq_refl _ _)).
  - vm_compute; reflexivity.
  - discriminate.
Defined.

(** * Further properties of the code *)

(** ** Matchers *)









Lemma glob_star_all (s : str) : glob_match (s2l "*") s = true.
Proof.
  induction s as [|x s IH]; [reflexivity|].
  cbn in IH |- *; rewrite IH; destruct (glob_match [] (x :: s)); reflexivity.
Qed.

Theorem glob_star_matches_every_name :
  forall (strict : bool) (s : str), matches (PatternMatcher (s2l "*") strict) (PStr s) = Ok true.
Proof.
  intros [] s; cbn -[glob_match]; [apply f_equal, glob_star_all|].
  replace (lower_c "*"%char) with "*"%char by reflexivity.
  cbn -[glob_match]; apply f_equal, glob_star_all.
Qed.

Definition glob_special (c : ascii) : bool :=
  ascii_eqb c "*" || ascii_eqb c "?" || ascii_eqb c "[".

Lemma glob_special_lower (c : ascii) : glob_special (lower_c c) = glob_special c.
Proof. destruct c as [[] [] [] [] [] [] [] []]; reflexivity. Qed.

Lemma existsb_glob_special_lower (p : str) :
  existsb glob_special (lower p) = existsb glob_special p.
Proof.
  unfold lower; induction p as [|c p IH]; [reflexivity|].
  cbn [map existsb]; rewrite glob_special_lower, IH; reflexivity.
Qed.

Lemma no_special_no_bracket (p : str) :
  existsb glob_special p = false -> existsb (fun c => ascii_eqb c "[") p = false.
Proof.
  induction p as [|c p IH]; cbn; [reflexivity|]; unfold glob_special.
  intros H; apply orb_false_iff in H as [Hc Hp]; apply orb_false_iff in Hc as [_ Hc].
  rewrite Hc, IH by exact Hp; reflexivity.
Qed.

Lemma glob_match_literal (p s : str) :
  existsb glob_special p = false -> glob_match p s = str_eqb p s.
Proof.
  revert s; induction p as [|c p IH]; intros s H.
  - destruct s; reflexivity.
  - cbn [existsb] in H; apply orb_false_iff in H as [Hc Hp].
    unfold glob_special in Hc; apply orb_false_iff in Hc as [Hc _]; apply orb_false_iff in Hc as [H1 H2].
    cbn [glob_match]; rewrite H1, H2.
    destruct s as [|x s]; [reflexivity|]; cbn [str_eqb]; rewrite IH by exact Hp; reflexivity.
Qed.

(** A pattern that does not start with ["/"] and holds none of [* ? []
    is a glob with no wildcard: it matches exactly the names equal to it
    (case-sensitively in strict mode, up to ASCII case otherwise). *)
Theorem glob_literal_matches_exact_name :
  forall (p s : str) (strict : bool),
    startswith p (s2l "/") = false ->
    existsb glob_special p = false ->
    matches (PatternMatcher p strict) (PStr s)
    = Ok (if strict then str_eqb p s else str_eqb (lower p) (lower s)).
Proof.
  intros p s strict H1 H2.
  unfold matches, PatternChecker_init; rewrite H1; cbn [andb bind PatternChecker_check pc_is_regex pc_ignore_case pc_pattern].
  destruct strict; cbn [negb]; unfold fnmatchcase.
  - rewrite (no_special_no_bracket _ H2), glob_match_literal by exact H2; reflexivity.
  - rewrite <- existsb_glob_special_lower in H2.
    rewrite (no_special_no_bracket _ H2), glob_match_literal by exact H2; reflexivity.
Qed.

Lemma glob_literal_matches_exact_name_witness :
  startswith (s2l "Secret") (s2l "/") = false
  /\ existsb glob_special (s2l "Secret") = false
  /\ matches (PatternMatcher (s2l "Secret") false) (PStr (s2l "SECRET")) = Ok true.
Proof.
  split; [reflexivity|]; split; [reflexivity|].
  rewrite (glob_literal_matches_exact_name (s2l "Secret") (s2l "SECRET") false); reflexivity.
Defined.

(** ** Email masking *)

Lemma search_inv (r : re) (ic : bool) (s : str) :
  forall b, search r ic b s = true ->
  exists b' pre suf c t, s = pre ++ suf /\ In (c, t) (ends r ic b' suf).
Proof.
  induction s as [|x s IH]; intros b H; cbn [search] in H.
  - destruct (ends r ic b []) as [|[c t] l] eqn:E; [discriminate H|].
    exists b, [], [], c, t; split; [reflexivity|]; rewrite E; left; reflexivity.
  - destruct (ends r ic b (x :: s)) as [|[c t] l] eqn:E.
    + destruct (IH false H) as [b' [pre [suf [c [t [-> Hin]]]]]].
      exists b', (x :: pre), suf, c, t; split; [reflexivity | exact Hin].
    + exists b, [], (x :: s), c, t; split; [reflexivity|]; rewrite E; left; reflexivity.
Qed.

Lemma search_email_at (b : bool) (s : str) :
  search email_ast false b s = true -> In "@"%char s.
Proof.
  intros H; destruct (search_inv _ _ _ _ H) as [b' [pre [suf [c [t [-> Hin]]]]]].
  pose proof (ends_app _ _ _ _ _ _ Hin) as Happ.
  destruct (email_match_shape _ _ _ _ Hin) as [x [l [d [-> _]]]].
  apply in_or_app; right; rewrite <- Happ; apply in_or_app; left.
  apply in_or_app; right; left; reflexivity.
Qed.

Lemma search_unfold (r : re) (ic b : bool) (s : str) :
  search r ic b s = match ends r ic b s with
                    | _ :: _ => true
                    | [] => match s with [] => false | _ :: s' => search r ic false s' end
                    end.
Proof. destruct s; reflexivity. Qed.

Lemma sub_loop_no_match (r : re) (ic : bool) (f : str -> result str) :
  forall fuel b s, List.length s < fuel -> search r ic b s = false -> sub_loop fuel r ic f b s = Ok s.
Proof.
  intros fuel; induction fuel as [|n IH]; intros b s Hlen Hs; [lia|].
  cbn [sub_loop]; rewrite search_unfold in Hs.
  destruct (ends r ic b s) as [|[c t] l]; [|discriminate Hs].
  destruct s as [|x s']; [reflexivity|].
  cbn in Hlen; rewrite (IH false s') by (assumption || lia); reflexivity.
Qed.

Lemma contains_email_search (v : str) :
  contains_email (PStr v) = Ok (search email_ast false true v).
Proof. unfold contains_email; rewrite email_compiles; reflexivity. Qed.

Lemma anonymize_email_no_match (v : str) :
  contains_email (PStr v) = Ok false -> anonymize_email (PStr v) = Ok (PStr v).
Proof.
  rewrite contains_email_search; intros H; injection H as H.
  unfold anonymize_email; rewrite email_compiles; unfold re_sub.
  rewrite sub_loop_no_match by (assumption || lia); reflexivity.
Qed.

(** [anonymize_email] on a string returns a string, and that string is
    the input itself exactly when [contains_email] is false: masking
    changes a value if and only if the value contains an email. *)
Theorem anonymize_email_unchanged_iff_no_email :
  forall v : str,
    exists w, anonymize_email (PStr v) = Ok (PStr w)
              /\ (w = v <-> contains_email (PStr v) = Ok false).
Proof.
  intros v; destruct (search email_ast false true v) eqn:Es.
  - assert (Hc : contains_email (PStr v) = Ok true) by (rewrite contains_email_search, Es; reflexivity).
    destruct (anonymize_email_changes v Hc) as [w [Hw [Hn _]]].
    exists w; split; [exact Hw|]; rewrite Hc; split; [intros; contradiction | discriminate].
  - assert (Hc : contains_email (PStr v) = Ok false) by (rewrite contains_email_search, Es; reflexivity).
    exists v; split; [exact (anonymize_email_no_match v Hc)|]; split; auto.
Qed.

(** A string with no ["@"] holds no email, and masking returns it as it is. *)
Theorem no_at_sign_no_email :
  forall v : str,
    ~ In "@"%char v ->
    contains_email (PStr v) = Ok false /\ anonymize_email (PStr v) = Ok (PStr v).
Proof.
  intros v Hv.
  assert (Hc : contains_email (PStr v) = Ok false).
  { rewrite contains_email_search; destruct (search email_ast false true v) eqn:Es; [|reflexivity].
    exfalso; exact (Hv (search_email_at _ _ Es)). }
  split; [exact Hc | exact (anonymize_email_no_match v Hc)].
Qed.

Lemma no_at_sign_no_email_witness :
  ~ In "@"%char (s2l "owner: jo at site.org")
  /\ contains_email (PStr (s2l "owner: jo at site.org")) = Ok false
  /\ anonymize_email (PStr (s2l "owner: jo at site.org")) = Ok (PStr (s2l "owner: jo at site.org")).
Proof.
  assert (H : ~ In "@"%char (s2l "owner: jo at site.org")).
  { cbn; intros H; repeat (destruct H as [H|H]; [discriminate H|]); exact H. }
  split; [exact H|]; exact (no_at_sign_no_email _ H).
Defined.

Lemma Forall2_refl_l {A} (R : A -> A -> Prop) (l : list A) :
  (forall x, R x x) -> Forall2 R l l.
Proof. intros Hr; induction l; constructor; auto. Qed.

Lemma sub_loop_pointwise (R : ascii -> ascii -> Prop) (r : re) (ic : bool) (f : str -> result str) :
  (forall x, R x x) ->
  (forall b' s' c t, In (c, t) (ends r ic b' s') -> exists c', f c = Ok c' /\ Forall2 R c c') ->
  forall fuel b s, List.length s < fuel -> exists w, sub_loop fuel r ic f b s = Ok w /\ Forall2 R s w.
Proof.
  intros Hr Hf fuel; induction fuel as [|n IH]; intros b s Hlen; [lia|].
  cbn [sub_loop].
  destruct (ends r ic b s) as [|[c t] rest] eqn:E.
  - destruct s as [|x s']; [exists []; split; [reflexivity | constructor]|].
    cbn in Hlen; destruct (IH false s') as [w [Hw Hrel]]; [lia|].
    rewrite Hw; exists (x :: w); split; [reflexivity | constructor; auto].
  - assert (Hin : In (c, t) (ends r ic b s)) by (rewrite E; left; reflexivity).
    destruct (Hf _ _ _ _ Hin) as [c' [Hc Hcc]]; rewrite Hc; cbn [bind].
    pose proof (ends_app _ _ _ _ _ _ Hin) as Happ.
    destruct c as [|y c0].
    + inversion Hcc; subst c'; cbn in Happ; subst t.
      destruct s as [|x s']; [exists []; split; [reflexivity | constructor]|].
      cbn in Hlen; destruct (IH false s') as [w [Hw Hrel]]; [lia|].
      rewrite Hw; exists (x :: w); split; [reflexivity | constructor; auto].
    + destruct (IH false t) as [w [Hw Hrel]]; [subst s; rewrite length_app in Hlen; cbn in Hlen; lia|].
      rewrite Hw; exists (c' ++ w); split; [reflexivity|].
      rewrite <- Happ; apply Forall2_app; assumption.
Qed.

Definition mask_rel (x y : ascii) : Prop := y = x \/ (y = "*"%char /\ x <> "@"%char).

Lemma mask_rel_refl (x : ascii) : mask_rel x x.
Proof. left; reflexivity. Qed.

Lemma Forall2_mask_repeat (mid : str) :
  Forall (fun y => y <> "@"%char) mid -> Forall2 mask_rel mid (repeat_c "*" (List.length mid)).
Proof. induction 1; cbn; constructor; [right; split; auto | assumption]. Qed.

Lemma anonymize_local_pointwise (l : str) :
  l <> [] -> Forall (fun y => y <> "@"%char) l -> Forall2 mask_rel l (anonymize_local l).
Proof.
  intros Hne Hl.
  destruct l as [|x [|y [|w m]]]; [contradiction| | |].
  - inversion Hl; subst; cbn; constructor; [right; split; auto | constructor].
  - inversion Hl as [|? ? Hx Hl']; inversion Hl'; subst; cbn.
    constructor; [apply mask_rel_refl|]; constructor; [right; split; auto | constructor].
  - destruct (exists_last (l := y :: w :: m) ltac:(discriminate)) as [mid [z Hmz]].
    assert (Hm : 1 <= List.length mid)
      by (apply (f_equal (@List.length _)) in Hmz; rewrite length_app in Hmz; cbn in Hmz; lia).
    rewrite Hmz in Hl |- *.
    unfold anonymize_local.
    rewrite (proj2 (Nat.ltb_lt 2 (List.length (x :: mid ++ [z]))))
      by (cbn [List.length]; rewrite length_app; cbn; lia).
    replace (List.length (x :: mid ++ [z]) - 2) with (List.length mid)
      by (cbn [List.length]; rewrite length_app; cbn; lia).
    replace (last (x :: mid ++ [z]) "*"%char) with z by (rewrite app_comm_cons, last_last; reflexivity).
    cbn [hd app]; constructor; [apply mask_rel_refl|].
    inversion Hl as [|? ? _ Hl']; subst.
    apply Forall_app in Hl' as [Hmid _].
    apply Forall2_app; [apply Forall2_mask_repeat; exact Hmid | constructor; [apply mask_rel_refl | constructor]].
Qed.

(** Masking keeps the length of the string and changes a character only
    into ["*"], never one that is ["@"]: each position of the result holds
    the input's character or an asterisk put over a character other than
    ["@"]. *)
Theorem anonymize_email_only_stars :
  forall v : str,
    exists w, anonymize_email (PStr v) = Ok (PStr w)
              /\ Forall2 (fun x y => y = x \/ (y = "*"%char /\ x <> "@"%char)) v w.
Proof.
  intros v; unfold anonymize_email; rewrite email_compiles; unfold re_sub.
  destruct (sub_loop_pointwise mask_rel email_ast false replace_email mask_rel_refl)
    with (fuel := S (List.length v)) (b := true) (s := v) as [w [Hw Hrel]]; [| lia |].
  - intros b' s' c t Hin.
    destruct (email_match_shape _ _ _ _ Hin) as [x [l [d [-> Hall]]]].
    assert (Hat : Forall (fun y => y <> "@"%char) (x :: l))
      by (eapply Forall_impl; [|exact Hall]; intros y Hy; apply (email_local_char y Hy)).
    exists (anonymize_local (x :: l) ++ "@"%char :: d); split.
    + unfold replace_email; rewrite split_at_sign_app by exact Hat; reflexivity.
    + apply Forall2_app; [apply anonymize_local_pointwise; [discriminate | exact Hat]|].
      apply Forall2_refl_l, mask_rel_refl.
  - exists w; rewrite Hw; split; [reflexivity | exact Hrel].
Qed.

(** ** The walker *)

(** Induction over values with nested dicts. *)
Definition pyval_nested_ind (P : pyval -> Prop)
  (HS : forall s, P (PStr s)) (HN : forall k, P (PNum k)) (H0 : P PNone)
  (HD : forall d, Forall (fun kv => P (snd kv)) d -> P (PDict d))
  (HB : forall t ms, Forall (fun kv => P (snd kv)) ms -> P (PBase t ms)) :
  forall v, P v :=
  fix F (v : pyval) : P v :=
    match v with
    | PStr s => HS s
    | PNum k => HN k
    | PNone => H0
    | PDict d =>
        HD d ((fix G (l : list (str * pyval)) : Forall (fun kv => P (snd kv)) l :=
                 match l with
                 | [] => @Forall_nil _ _
                 | (k, x) :: l' => @Forall_cons _ _ (k, x) l' (F x) (G l')
                 end) d)
    | PBase t ms =>
        HB t ms ((fix G (l : list (str * pyval)) : Forall (fun kv => P (snd kv)) l :=
                    match l with
                    | [] => @Forall_nil _ _
                    | (k, x) :: l' => @Forall_cons _ _ (k, x) l' (F x) (G l')
                    end) ms)
    end.

(** The loop of [process_properties_dict], named. *)
Definition walk_loop (a : ParameterAction) (check_values : bool) (current_object : node)
  : dict -> dict -> walker_state -> result (dict * walker_state) :=
  fix loop (items : dict) (cur : dict) (st : walker_state) {struct items}
    : result (dict * walker_state) :=
    match items with
    | [] => Ok (cur, st)
    | (key, value) :: rest =>
        let* '(cur', st') :=
          match value with
          | PDict vd =>
              if dict_has vd (s2l "value")
              then process_leaf a check_values current_object cur key vd st
              else
                let* '(vd', st1) := process_properties_value a check_values current_object value st in
                Ok (dict_set cur key (PDict vd'), st1)
          | _ => Ok (cur, st)
          end in
        loop rest cur' st'
    end.

Definition walk_step (a : ParameterAction) (check_values : bool) (current_object : node)
    (key : str) (value : pyval) (cur : dict) (st : walker_state) : result (dict * walker_state) :=
  match value with
  | PDict vd =>
      if dict_has vd (s2l "value")
      then process_leaf a check_values current_object cur key vd st
      else
        let* '(vd', st1) := process_properties_value a check_values current_object value st in
        Ok (dict_set cur key (PDict vd'), st1)
  | _ => Ok (cur, st)
  end.

Lemma ppv_dict (a : ParameterAction) (cv : bool) (n : node) (items : dict) (st : walker_state) :
  process_properties_value a cv n (PDict items) st = walk_loop a cv n items items st.
Proof. reflexivity. Qed.

Lemma walk_loop_cons (a : ParameterAction) (cv : bool) (n : node) (key : str) (value : pyval)
    (rest cur : dict) (st : walker_state) :
  walk_loop a cv n ((key, value) :: rest) cur st
  = let* '(cur', st') := walk_step a cv n key value cur st in walk_loop a cv n rest cur' st'.
Proof. reflexivity. Qed.

Lemma walk_loop_inv (a : ParameterAction) (cv : bool) (n : node)
    (I : list (str * pyval) -> dict -> walker_state -> Prop) :
  (forall key value rest cur st cur' st',
     I ((key, value) :: rest) cur st -> walk_step a cv n key value cur st = Ok (cur', st') ->
     I rest cur' st') ->
  forall items cur st d st',
    I items cur st -> walk_loop a cv n items cur st = Ok (d, st') -> I [] d st'.
Proof.
  intros Hstep items; induction items as [|[key value] rest IH]; intros cur st d st' HI H.
  - cbn in H; injection H as <- <-; exact HI.
  - rewrite walk_loop_cons in H.
    destruct (walk_step a cv n key value cur st) as [[c1 s1]|e] eqn:E; cbn [bind] in H; [|discriminate H].
    exact (IH _ _ _ _ (Hstep _ _ _ _ _ _ _ HI E) H).
Qed.

Section WalkState.

Variables (a : ParameterAction) (cv : bool).
Variable R : walker_state -> walker_state -> Prop.
Hypothesis Rrefl : forall st, R st st.
Hypothesis Rtrans : forall s1 s2 s3, R s1 s2 -> R s2 s3 -> R s1 s3.
Hypothesis Rleaf : forall n cur key vd st cur' st',
  process_leaf a cv n cur key vd st = Ok (cur', st') -> R st st'.

Lemma walk_state (n : node) :
  forall v st d st', process_properties_value a cv n v st = Ok (d, st') -> R st st'.
Proof.
  intros v; induction v as [s|k| |items Hall|t ms _] using pyval_nested_ind; intros st d st' Hrun;
    cbn [process_properties_value] in Hrun; try (injection Hrun as _ <-; apply Rrefl).
  revert Hrun; generalize items at 2 as cur; intros cur; revert cur st.
  induction Hall as [|[key value] rest Hv Hrest IH]; intros cur st Hrun.
  - injection Hrun as _ <-; apply Rrefl.
  - cbn [bind] in Hrun.
    destruct value as [| | |vd|]; cbn [bind] in Hrun; try exact (IH _ _ Hrun).
    destruct (dict_has vd (s2l "value")).
    + destruct (process_leaf a cv n cur key vd st) as [[c1 s1]|e] eqn:El; cbn [bind] in Hrun;
        [|discriminate Hrun].
      exact (Rtrans _ _ _ (Rleaf _ _ _ _ _ _ _ El) (IH _ _ Hrun)).
    + destruct (process_properties_value a cv n (PDict vd) st) as [[vd' s1]|e] eqn:En;
        cbn [bind] in Hrun; [|discriminate Hrun].
      exact (Rtrans _ _ _ (Hv _ _ _ En) (IH _ _ Hrun)).
Qed.

Lemma context_state (n n' : node) (st st' : walker_state) :
  process_context a cv n st = Ok (n', st') -> R st st'.
Proof.
  unfold process_context; intros H.
  assert (Hobj : forall (obj : node) (s : walker_state),
             (match parameters obj with
              | None | Some PNone => Ok (obj, s)
              | Some _ => Ok (obj, s)
              end) = @Ok (node * walker_state) (obj, s))
    by (intros obj s; destruct (parameters obj) as [[]|]; reflexivity).
  destruct (properties n) as [[s|k| |d|t ms]|]; cbn [bind] in H; try discriminate H;
    try (rewrite Hobj in H; injection H as _ <-; apply Rrefl).
  - destruct (process_properties_dict a cv d n st) as [[d' s1]|e] eqn:E; cbn [bind] in H; [|discriminate H].
    rewrite Hobj in H; injection H as _ <-; exact (walk_state n _ _ _ _ E).
  - destruct (process_properties_dict a cv ms n st) as [[d' s1]|e] eqn:E; cbn [bind] in H; [|discriminate H].
    rewrite Hobj in H; injection H as _ <-; exact (walk_state n _ _ _ _ E).
Qed.

Lemma traverse_state (nodes root : list node) (st st' : walker_state) :
  traverse a cv nodes st = Ok (root, st') -> R st st'.
Proof.
  revert root st st'; induction nodes as [|n nodes IH]; intros root st st' H; cbn [traverse] in H.
  - injection H as _ <-; apply Rrefl.
  - destruct (process_context a cv n st) as [[n1 s1]|e] eqn:E; cbn [bind] in H; [|discriminate H].
    destruct (traverse a cv nodes s1) as [[r1 s2]|e] eqn:E2; cbn [bind] in H; [|discriminate H].
    injection H as _ <-; exact (Rtrans _ _ _ (context_state _ _ _ _ E) (IH _ _ _ E2)).
Qed.

End WalkState.

(** ** Counting anonymized parameters *)

Definition total_recorded (ast : action_state) : nat :=
  List.length (flat_map snd (affected_parameters ast)).

Lemma flat_map_dd_append (m : list (option str * list pyval)) (k : option str) (v : pyval) :
  List.length (flat_map snd (dd_append m k v)) = S (List.length (flat_map snd m)).
Proof.
  induction m as [|[k' vs] m IH]; cbn; [reflexivity|].
  destruct (opt_str_eqb k' k); cbn; rewrite !length_app; cbn; [lia|]; rewrite IH; lia.
Qed.

Lemma anonymization_apply_count (p : dict) (n : node) (c : pyval) (key : str)
    (ast : action_state) (p' : dict) (c' : pyval) (ast' : action_state) :
  anonymization_apply p n c key ast = Ok (p', c', ast') ->
  anonymized_count ast' + total_recorded ast = anonymized_count ast + total_recorded ast'.
Proof.
  unfold anonymization_apply; intros H.
  destruct (dict_get p (s2l "value")) as [[s| | | |]|]; try (injection H as _ _ <-; lia).
  destruct (anonymize_email (PStr s)) as [[w| | | |]|]; cbn [bind] in H; try discriminate H;
    try (injection H as _ _ <-; lia).
  destruct (str_eqb w s); [injection H as _ _ <-; lia|].
  injection H as _ _ <-; unfold total_recorded; cbn.
  rewrite flat_map_dd_append; lia.
Qed.

Lemma anonymization_leaf_count (cv : bool) (n : node) (cur : dict) (key : str) (vd : dict)
    (st : walker_state) (cur' : dict) (st' : walker_state) :
  process_leaf AnonymizationAction cv n cur key vd st = Ok (cur', st') ->
  anonymized_count (wact st') + total_recorded (wact st)
  = anonymized_count (wact st) + total_recorded (wact st').
Proof.
  unfold process_leaf; intros H.
  destruct (check AnonymizationAction _) as [[]|e]; cbn [bind] in H; try discriminate H;
    [|injection H as _ <-; lia].
  destruct (apply AnonymizationAction vd n (PDict cur) key (wact st)) as [[[p' c'] ast']|e] eqn:E;
    cbn [bind] in H; [|discriminate H].
  destruct c'; try (injection H as _ <-; lia).
  injection H as _ <-; cbn [wact]; exact (anonymization_apply_count _ _ _ _ _ _ _ _ E).
Qed.

(** For the anonymization action, after the walker has run over any
    sequence of nodes from a fresh processor, [anonymized_count] equals the
    number of names recorded in [affected_parameters] (every recorded name
    was counted once, and nothing else was counted). *)
Theorem anonymization_count_matches_records :
  forall (cv : bool) (nodes root : list node) (st : walker_state),
    traverse AnonymizationAction cv nodes walker_state0 = Ok (root, st) ->
    anonymized_count (wact st) = total_recorded (wact st).
Proof.
  intros cv nodes root st H.
  set (R := fun s s' : walker_state => anonymized_count (wact s') + total_recorded (wact s)
                                       = anonymized_count (wact s) + total_recorded (wact s')).
  assert (Hr : forall s, R s s) by (intros s; unfold R; lia).
  assert (Ht : forall s1 s2 s3, R s1 s2 -> R s2 s3 -> R s1 s3) by (intros s1 s2 s3; unfold R; lia).
  pose proof (traverse_state AnonymizationAction cv R Hr Ht
                (fun n cur key vd s cur' s' E => anonymization_leaf_count cv n cur key vd s cur' s' E)
                nodes root walker_state0 st H) as Hc.
  unfold R in Hc; cbn in Hc; lia.
Qed.

Definition email_node : node :=
  {| nid := Some (s2l "n2");
     properties := Some (PDict [(s2l "Owner", param_leaf "Owner" "ann@site.org");
                                (s2l "Group", PDict [(s2l "Mail", param_leaf "Mail" "bo@x.io, cy@y.net")])]);
     parameters := None |}.

Lemma anonymization_count_matches_records_witness :
  exists root st, traverse AnonymizationAction true [email_node; example_node] walker_state0 = Ok (root, st)
                  /\ anonymized_count (wact st) = 2
                  /\ anonymized_count (wact st) = total_recorded (wact st).
Proof.
  do 2 eexists; split; [vm_compute; reflexivity|]; split; [reflexivity|].
  eapply (anonymization_count_matches_records true [email_node; example_node]); vm_compute; reflexivity.
Defined.

(** ** Processed nodes and recorded ids *)

Lemma set_add_iff (s : list (option str)) (x y : option str) :
  In x (set_add s y) <-> In x s \/ x = y.
Proof.
  unfold set_add; destruct (existsb (opt_str_eqb y) s) eqn:E.
  - apply existsb_exists in E as [z [Hz Heq]]; apply opt_str_eqb_eq in Heq; subst z.
    split; [auto | intros [H| ->]; assumption].
  - rewrite in_app_iff; cbn; split; [intros [H|[H|[]]]; auto | intros [H|H]; auto].
Qed.

Lemma dd_append_keys (m : list (option str * list pyval)) (k x : option str) (v : pyval) :
  In x (map fst (dd_append m k v)) <-> In x (map fst m) \/ x = k.
Proof.
  induction m as [|[k' vs] m IH]; cbn.
  - split; [intros [H|[]]; auto | intros [[]|H]; auto].
  - destruct (opt_str_eqb k' k) eqn:E; cbn.
    + apply opt_str_eqb_eq in E; subst k'; split; [intros [H|H]; auto | intros [[H|H]|H]; auto].
    + rewrite IH; split; [intros [H|[H|H]]; auto | intros [[H|H]|H]; auto].
Qed.

Definition ids_match (st : walker_state) : Prop :=
  forall x, In x (processed_objects st) <-> In x (map fst (affected_parameters (wact st))).

Lemma ids_match_step (st : walker_state) (k : option str) (v : pyval) (ast : action_state) :
  ids_match st -> affected_parameters ast = dd_append (affected_parameters (wact st)) k v ->
  ids_match {| processed_objects := set_add (processed_objects st) k; wact := ast |}.
Proof.
  intros Hi Ha x; cbn [processed_objects wact]; rewrite set_add_iff, Ha, dd_append_keys, (Hi x); reflexivity.
Qed.

Lemma removal_leaf_ids (m : ParameterMatcher) (cv : bool) (n : node) (cur : dict) (key : str)
    (vd : dict) (st : walker_state) (cur' : dict) (st' : walker_state) :
  process_leaf (RemovalAction m) cv n cur key vd st = Ok (cur', st') -> ids_match st -> ids_match st'.
Proof.
  unfold process_leaf; intros H Hi.
  destruct (check (RemovalAction m) _) as [[]|e]; cbn [bind] in H; try discriminate H;
    [|injection H as _ <-; exact Hi].
  cbn [apply removal_apply bind] in H.
  injection H as _ <-; eapply ids_match_step; [exact Hi | reflexivity].
Qed.

Lemma anonymization_leaf_ids (n : node) (cur : dict) (key : str)
    (vd : dict) (st : walker_state) (cur' : dict) (st' : walker_state) :
  process_leaf AnonymizationAction true n cur key vd st = Ok (cur', st') -> ids_match st -> ids_match st'.
Proof.
  unfold process_leaf; intros H Hi.
  destruct (check AnonymizationAction (dict_get_or vd (s2l "value") (PStr []))) as [[]|e] eqn:Ec;
    cbn [bind] in H; try discriminate H; [|injection H as _ <-; exact Hi].
  cbn [check] in Ec; unfold dict_get_or in Ec.
  destruct (dict_get vd (s2l "value")) as [[s| | | |]|] eqn:Ev;
    try (cbn in Ec; discriminate Ec).
  destruct (anonymize_email_changes s Ec) as [w [Hw [Hn _]]].
  cbn [apply] in H; unfold anonymization_apply in H; rewrite Ev, Hw in H; cbn [bind] in H.
  destruct (str_eqb w s) eqn:E; [apply str_eqb_eq in E; contradiction|].
  injection H as _ <-; eapply ids_match_step; [exact Hi | reflexivity].
Qed.

Lemma select_action_cases (fi : FunctionInputs) (a : ParameterAction) (cv : bool) :
  select_action fi = inr (a, cv) ->
  (exists m, a = RemovalAction m) \/ (a = AnonymizationAction /\ cv = true).
Proof.
  unfold select_action; destruct (sanitization_mode fi); [| |intros H; injection H as <- <-; auto];
    destruct (is_nil (parameter_input fi)); intros H; try discriminate H;
    injection H as <- <-; left; eexists; reflexivity.
Qed.

(** With the action and mode [automate_function] selects, the nodes marked
    processed after the walk are exactly the ids under which
    [affected_parameters] holds names; so when some node was processed and
    [report] returns, it makes exactly one [attach_info_to_objects] call,
    whose object ids are exactly the processed nodes. *)
Theorem report_attaches_processed_nodes :
  forall (fi : FunctionInputs) (nodes root : list node) (a : ParameterAction) (cv : bool)
         (st : walker_state),
    select_action fi = inr (a, cv) ->
    traverse a cv nodes walker_state0 = Ok (root, st) ->
    (forall x, In x (processed_objects st) <-> In x (map fst (affected_parameters (wact st))))
    /\ (processed_objects st <> [] ->
        forall attach, report a (wact st) = Ok attach ->
        exists c ids names, attach = [EvAttach c ids names]
                            /\ (forall x, In x ids <-> In x (processed_objects st))).
Proof.
  intros fi nodes root a cv st Hsel Htr.
  assert (Hi : ids_match st).
  { refine (traverse_state a cv (fun s s' => ids_match s -> ids_match s') (fun _ h => h)
              (fun _ _ _ h1 h2 h => h2 (h1 h)) _ nodes root walker_state0 st Htr _).
    - intros n cur key vd s cur' s' E.
      destruct (select_action_cases _ _ _ Hsel) as [[m ->]|[-> ->]].
      + exact (removal_leaf_ids m cv n cur key vd s cur' s' E).
      + exact (anonymization_leaf_ids n cur key vd s cur' s' E).
    - intros x; cbn; reflexivity. }
  split; [exact Hi|].
  intros Hne attach Hr.
  unfold report in Hr.
  destruct (affected_parameters (wact st)) as [|e m] eqn:Ea.
  - destruct (processed_objects st) as [|x p] eqn:Ep; [contradiction|].
    assert (Hx : In x (map fst (affected_parameters (wact st))))
      by (apply (proj1 (Hi x)); rewrite Ep; left; reflexivity).
    rewrite Ea in Hx; destruct Hx.
  - destruct (negb (forallb hashable (flat_map snd (e :: m)))); [discriminate Hr|].
    assert (Hids : forall x, In x (map fst (e :: m)) <-> In x (processed_objects st))
      by (intros x; rewrite (Hi x), Ea; reflexivity).
    destruct a as [mt|].
    + destruct (negb _); [discriminate Hr|].
      injection Hr as <-; do 3 eexists; split; [reflexivity | exact Hids].
    + injection Hr as <-; do 3 eexists; split; [reflexivity | exact Hids].
Qed.

Lemma report_attaches_processed_nodes_witness :
  exists root st,
    traverse (RemovalAction (PrefixMatcher (s2l "Foo_") true)) false [example_node] walker_state0
    = Ok (root, st)
    /\ (forall x, In x (processed_objects st) <-> In x (map fst (affected_parameters (wact st)))).
Proof.
  do 2 eexists; split; [vm_compute; reflexivity|].
  eapply (report_attaches_processed_nodes (prefix_inputs "Foo_") [example_node]); [reflexivity|].
  vm_compute; reflexivity.
Defined.

(** ** What a walk over a properties dict changes *)

Lemma str_eqb_neq (a b : str) : a <> b -> str_eqb a b = false.
Proof. intros H; destruct (str_eqb a b) eqn:E; [apply str_eqb_eq in E; contradiction | reflexivity]. Qed.

Lemma dict_get_pop_other (d : dict) (k k' : str) :
  k' <> k -> dict_get (dict_pop d k) k' = dict_get d k'.
Proof.
  intros Hne; induction d as [|[k0 v0] d IH]; cbn; [reflexivity|].
  destruct (str_eqb k0 k) eqn:E.
  - apply str_eqb_eq in E; subst k0; rewrite str_eqb_neq by congruence; reflexivity.
  - cbn; destruct (str_eqb k0 k'); [reflexivity | exact IH].
Qed.

Lemma dict_get_set_other (d : dict) (k k' : str) (v : pyval) :
  k' <> k -> dict_get (dict_set d k v) k' = dict_get d k'.
Proof.
  intros Hne; induction d as [|[k0 v0] d IH]; cbn.
  - rewrite str_eqb_neq by congruence; reflexivity.
  - destruct (str_eqb k0 k) eqn:E; cbn.
    + apply str_eqb_eq in E; subst k0; rewrite !str_eqb_neq by congruence; reflexivity.
    + destruct (str_eqb k0 k'); [reflexivity | exact IH].
Qed.

Lemma dict_get_In (d : dict) (k : str) (v : pyval) : dict_get d k = Some v -> In k (map fst d).
Proof.
  induction d as [|[k0 v0] d IH]; cbn; [discriminate|].
  destruct (str_eqb k0 k) eqn:E; [apply str_eqb_eq in E; auto | auto].
Qed.

Lemma dict_get_None (d : dict) (k : str) : ~ In k (map fst d) -> dict_get d k = None.
Proof. intros H; destruct (dict_get d k) eqn:E; [apply dict_get_In in E; contradiction | reflexivity]. Qed.

Lemma dict_has_In (d : dict) (k : str) : dict_has d k = true <-> In k (map fst d).
Proof.
  unfold dict_has; split.
  - destruct (dict_get d k) eqn:E; [intros _; exact (dict_get_In _ _ _ E) | discriminate].
  - intros H; induction d as [|[k0 v0] d IH]; cbn in *; [contradiction|].
    destruct (str_eqb k0 k) eqn:E; [reflexivity|].
    apply IH; destruct H as [->|H]; [rewrite str_eqb_refl in E; discriminate | exact H].
Qed.

Lemma dict_pop_keys_incl (d : dict) (k x : str) : In x (map fst (dict_pop d k)) -> In x (map fst d).
Proof.
  induction d as [|[k0 v0] d IH]; cbn; [auto|].
  destruct (str_eqb k0 k); cbn; [auto | intros [H|H]; auto].
Qed.

Lemma dict_pop_nodup (d : dict) (k : str) : NoDup (map fst d) -> NoDup (map fst (dict_pop d k)).
Proof.
  induction d as [|[k0 v0] d IH]; cbn; intros Hn; [constructor|].
  inversion Hn as [|? ? Hk Hd]; subst.
  destruct (str_eqb k0 k); [exact Hd|].
  cbn; constructor; [intros H; apply Hk, (dict_pop_keys_incl _ _ _ H) | exact (IH Hd)].
Qed.

Lemma dict_pop_nodup_gone (d : dict) (k : str) : NoDup (map fst d) -> dict_get (dict_pop d k) k = None.
Proof.
  induction d as [|[k0 v0] d IH]; cbn; intros Hn; [reflexivity|].
  inversion Hn as [|? ? Hk Hd]; subst.
  destruct (str_eqb k0 k) eqn:E.
  - apply str_eqb_eq in E; subst k0; exact (dict_get_None _ _ Hk).
  - cbn; rewrite E; exact (IH Hd).
Qed.

Lemma dict_set_keys (d : dict) (k : str) (v : pyval) :
  In k (map fst d) -> map fst (dict_set d k v) = map fst d.
Proof.
  induction d as [|[k0 v0] d IH]; cbn; [contradiction|]; intros H.
  destruct (str_eqb k0 k) eqn:E; cbn.
  - apply str_eqb_eq in E; subst k0; reflexivity.
  - f_equal; apply IH; destruct H as [->|H]; [rewrite str_eqb_refl in E; discriminate | exact H].
Qed.

Lemma dict_set_nodup (d : dict) (k : str) (v : pyval) : NoDup (map fst d) -> NoDup (map fst (dict_set d k v)).
Proof.
  intros Hn; destruct (in_dec (list_eq_dec ascii_dec) k (map fst d)) as [Hi|Hi].
  - rewrite dict_set_keys by exact Hi; exact Hn.
  - induction d as [|[k0 v0] d IH]; cbn in *; [constructor; [auto | constructor]|].
    inversion Hn as [|? ? Hk Hd]; subst.
    rewrite str_eqb_neq by (intros ->; auto); cbn; constructor; [|apply IH; auto].
    intros H; assert (Hx : k0 = k \/ In k0 (map fst d)).
    { clear -H; induction d as [|[k1 v1] d IH]; cbn in *; [destruct H as [H|[]]; auto|].
      destruct (str_eqb k1 k); cbn in H; [destruct H as [->|H]; auto|].
      destruct H as [->|H]; auto; destruct (IH H); auto. }
    destruct Hx as [->|Hx]; auto.
Qed.

Lemma nodup_get (d : dict) (k : str) (v : pyval) : NoDup (map fst d) -> In (k, v) d -> dict_get d k = Some v.
Proof.
  induction d as [|[k0 v0] d IH]; cbn; intros Hn Hin; [contradiction|].
  inversion Hn as [|? ? Hk Hd]; subst.
  destruct Hin as [Heq|Hin].
  - injection Heq as -> ->; rewrite str_eqb_refl; reflexivity.
  - rewrite str_eqb_neq by (intros ->; apply Hk, (in_map fst _ (k, v) Hin)); exact (IH Hd Hin).
Qed.

(** [apply] on a dict container leaves it as it is (anonymization) or pops
    the parameter's key from it (removal). *)
Lemma apply_dict_container (a : ParameterAction) (p : dict) (n : node) (cur : dict) (key : str)
    (ast : action_state) (p' : dict) (c' : pyval) (ast' : action_state) :
  apply a p n (PDict cur) key ast = Ok (p', c', ast') -> c' = PDict cur \/ c' = PDict (dict_pop cur key).
Proof.
  intros H; destruct a; cbn [apply] in H.
  - unfold removal_apply in H; cbn [bind] in H; injection H as _ <- _; right; reflexivity.
  - unfold anonymization_apply in H.
    destruct (dict_get p (s2l "value")) as [[s| | | |]|]; try (injection H as _ <- _; left; reflexivity).
    destruct (anonymize_email (PStr s)) as [[w| | | |]|e]; cbn [bind] in H; try discriminate H;
      try (injection H as _ <- _; left; reflexivity).
    destruct (str_eqb w s); injection H as _ <- _; left; reflexivity.
Qed.

Lemma leaf_cases (a : ParameterAction) (cv : bool) (n : node) (cur : dict) (key : str) (vd : dict)
    (st : walker_state) (cur' : dict) (st' : walker_state) :
  process_leaf a cv n cur key vd st = Ok (cur', st') ->
  cur' = cur
  \/ (exists p', cur' = (if dict_has cur key then dict_set cur key (PDict p') else cur))
  \/ (exists p', cur' = (if dict_has (dict_pop cur key) key
                         then dict_set (dict_pop cur key) key (PDict p') else dict_pop cur key)).
Proof.
  unfold process_leaf; intros H.
  destruct (check a _) as [[]|e]; cbn [bind] in H; try discriminate H; [|injection H as <- _; auto].
  destruct (apply a vd n (PDict cur) key (wact st)) as [[[p' c'] ast']|e] eqn:Ea; cbn [bind] in H;
    [|discriminate H].
  destruct (apply_dict_container _ _ _ _ _ _ _ _ _ Ea) as [->| ->]; injection H as <- _; eauto.
Qed.

Lemma walk_step_other (a : ParameterAction) (cv : bool) (n : node) (key : str) (value : pyval)
    (cur : dict) (st : walker_state) (cur' : dict) (st' : walker_state) (k : str) :
  walk_step a cv n key value cur st = Ok (cur', st') -> k <> key -> dict_get cur' k = dict_get cur k.
Proof.
  unfold walk_step; intros H Hne.
  destruct value as [| | |vd|]; try (injection H as <- _; reflexivity).
  destruct (dict_has vd (s2l "value")).
  - destruct (leaf_cases _ _ _ _ _ _ _ _ _ H) as [->|[[p' ->]|[p' ->]]]; [reflexivity| |];
      destruct (dict_has _ key); rewrite ?dict_get_set_other, ?dict_get_pop_other by exact Hne; reflexivity.
  - destruct (process_properties_value a cv n (PDict vd) st) as [[vd' s1]|e]; cbn [bind] in H;
      [|discriminate H].
    injection H as <- _; apply dict_get_set_other, Hne.
Qed.

Lemma walk_step_nodup (a : ParameterAction) (cv : bool) (n : node) (key : str) (value : pyval)
    (cur : dict) (st : walker_state) (cur' : dict) (st' : walker_state) :
  walk_step a cv n key value cur st = Ok (cur', st') -> NoDup (map fst cur) -> NoDup (map fst cur').
Proof.
  unfold walk_step; intros H Hn.
  destruct value as [| | |vd|]; try (injection H as <- _; exact Hn).
  destruct (dict_has vd (s2l "value")).
  - destruct (leaf_cases _ _ _ _ _ _ _ _ _ H) as [->|[[p' ->]|[p' ->]]]; [exact Hn| |];
      destruct (dict_has _ key);
      auto using dict_set_nodup, dict_pop_nodup.
  - destruct (process_properties_value a cv n (PDict vd) st) as [[vd' s1]|e]; cbn [bind] in H;
      [|discriminate H].
    injection H as <- _; apply dict_set_nodup, Hn.
Qed.

Lemma walk_step_non_dict (a : ParameterAction) (cv : bool) (n : node) (key : str) (value : pyval)
    (cur : dict) (st : walker_state) (cur' : dict) (st' : walker_state) :
  walk_step a cv n key value cur st = Ok (cur', st') -> (forall vd, value <> PDict vd) -> cur' = cur.
Proof.
  unfold walk_step; intros H Hv; destruct value as [| | |vd|];
    try (injection H as <- _; reflexivity); exfalso; exact (Hv vd eq_refl).
Qed.

Lemma nodup_split (pre rest : dict) (key : str) (value : pyval) :
  NoDup (map fst (pre ++ (key, value) :: rest)) -> ~ In key (map fst rest).
Proof.
  rewrite map_app; intros H; apply NoDup_app_remove_l in H; cbn in H.
  inversion H; assumption.
Qed.

Lemma anonymization_apply_container (p : dict) (n : node) (c : pyval) (key : str)
    (ast : action_state) (p' : dict) (c' : pyval) (ast' : action_state) :
  anonymization_apply p n c key ast = Ok (p', c', ast') -> (forall t ms, c <> PBase t ms) -> c' = c.
Proof.
  unfold anonymization_apply; intros H Hc.
  destruct (dict_get p (s2l "value")) as [[s| | | |]|]; try (injection H as _ <- _; reflexivity).
  destruct (anonymize_email (PStr s)) as [[w| | | |]|e]; cbn [bind] in H; try discriminate H;
    try (injection H as _ <- _; reflexivity).
  destruct (str_eqb w s); injection H as _ <- _; [reflexivity|].
  destruct c as [| | | |t ms]; try reflexivity; exfalso; exact (Hc t ms eq_refl).
Qed.

Lemma anonymization_leaf_keys (cv : bool) (n : node) (cur : dict) (key : str) (vd : dict)
    (st : walker_state) (cur' : dict) (st' : walker_state) :
  process_leaf AnonymizationAction cv n cur key vd st = Ok (cur', st') ->
  In key (map fst cur) -> map fst cur' = map fst cur.
Proof.
  unfold process_leaf; intros H Hk.
  destruct (check AnonymizationAction _) as [[]|e]; cbn [bind] in H; try discriminate H;
    [|injection H as <- _; reflexivity].
  destruct (apply AnonymizationAction vd n (PDict cur) key (wact st)) as [[[p' c'] ast']|e] eqn:Ea;
    cbn [bind] in H; [|discriminate H].
  cbn [apply] in Ea; apply anonymization_apply_container in Ea; [|discriminate]; subst c'.
  injection H as <- _; destruct (dict_has cur key); [apply dict_set_keys, Hk | reflexivity].
Qed.

(** Walking a properties dict (whose keys are distinct, as in a Python
    dict) leaves every key that does not hold a dict with the value it had:
    absent keys stay absent and strings, numbers, [None] and objects are
    never changed, by either action. *)
Theorem walk_keeps_non_dict_entries :
  forall (a : ParameterAction) (cv : bool) (d : dict) (n : node) (st : walker_state)
         (d' : dict) (st' : walker_state),
    NoDup (map fst d) ->
    process_properties_dict a cv d n st = Ok (d', st') ->
    forall k, (forall vd, dict_get d k <> Some (PDict vd)) -> dict_get d' k = dict_get d k.
Proof.
  intros a cv d n st d' st' Hnd Hrun k Hk.
  unfold process_properties_dict in Hrun; rewrite ppv_dict in Hrun.
  refine (proj2 (walk_loop_inv a cv n
            (fun items cur _ => incl items d /\ dict_get cur k = dict_get d k) _ d d st d' st' _ Hrun)).
  - intros key value rest cur s cur' s' [Hinc Hget] E; split; [intros x Hx; apply Hinc; right; exact Hx|].
    rewrite <- Hget.
    destruct (list_eq_dec ascii_dec k key) as [->|Hne]; [|exact (walk_step_other _ _ _ _ _ _ _ _ _ _ E Hne)].
    assert (Hv : dict_get d key = Some value) by (apply nodup_get; [exact Hnd | apply Hinc; left; reflexivity]).
    rewrite (walk_step_non_dict _ _ _ _ _ _ _ _ _ E); [reflexivity|].
    intros vd ->; exact (Hk vd Hv).
  - split; [intros x Hx; exact Hx | reflexivity].
Qed.

(** Walking in name mode with a removal action deletes, among the keys of
    the dict (distinct, as in a Python dict), exactly those holding a
    parameter leaf (a dict with a ["value"] key) whose name (its ["name"],
    or the key when it has none) the matcher accepts; every other key is
    still there. *)
Theorem removal_deletes_exactly_matching_leaves :
  forall (m : ParameterMatcher) (d : dict) (n : node) (st : walker_state) (d' : dict)
         (st' : walker_state),
    NoDup (map fst d) ->
    process_properties_dict (RemovalAction m) false d n st = Ok (d', st') ->
    forall k, dict_has d k = true ->
      (dict_has d' k = false
       <-> exists vd, dict_get d k = Some (PDict vd) /\ dict_has vd (s2l "value") = true
                      /\ matches m (dict_get_or vd (s2l "name") (PStr k)) = Ok true).
Proof.
  intros m d n st d' st' Hnd Hrun.
  set (hit := fun k => exists vd, dict_get d k = Some (PDict vd) /\ dict_has vd (s2l "value") = true
                                  /\ matches m (dict_get_or vd (s2l "name") (PStr k)) = Ok true).
  unfold process_properties_dict in Hrun; rewrite ppv_dict in Hrun.
  assert (Hfin : forall k, In k (map fst d) -> (dict_has d' k = false <-> (~ In k [] /\ hit k))).
  2:{ intros k Hk; apply dict_has_In in Hk as Hkd.
      rewrite (Hfin k Hkd); split; [intros [_ Hh]; exact Hh | intros Hh; split; [intros []|exact Hh]]. }
  refine (proj2 (proj2 (walk_loop_inv (RemovalAction m) false n
            (fun items cur _ => (exists pre, d = pre ++ items) /\ NoDup (map fst cur)
               /\ forall k, In k (map fst d) -> (dict_has cur k = false <-> (~ In k (map fst items) /\ hit k)))
            _ d d st d' st' _ Hrun))).
  - intros key value rest cur s cur' s' [[pre Hd] [Hn Hk]] E.
    assert (Hkr : ~ In key (map fst rest)) by (rewrite Hd in Hnd; exact (nodup_split _ _ _ _ Hnd)).
    assert (Hv : dict_get d key = Some value)
      by (apply nodup_get; [exact Hnd | rewrite Hd; apply in_or_app; right; left; reflexivity]).
    split; [exists (pre ++ [(key, value)]); rewrite Hd, <- app_assoc; reflexivity|].
    split; [exact (walk_step_nodup _ _ _ _ _ _ _ _ _ E Hn)|].
    intros k Hkd.
    destruct (list_eq_dec ascii_dec k key) as [->|Hne].
    + assert (Hold : dict_has cur key = true).
      { destruct (dict_has cur key) eqn:Eh; [reflexivity|].
        apply (Hk key Hkd) in Eh as [Hni _]; exfalso; apply Hni; left; reflexivity. }
      unfold walk_step in E.
      destruct value as [| | |vd|];
        try (injection E as <- _; rewrite Hold; split; [discriminate|];
             intros [_ [vd [Hg _]]]; rewrite Hv in Hg; discriminate Hg).
      destruct (dict_has vd (s2l "value")) eqn:Hvv.
      * unfold process_leaf in E; cbn [check] in E.
        destruct (matches m (dict_get_or vd (s2l "name") (PStr key))) as [[]|e] eqn:Em;
          cbn [bind] in E; try discriminate E.
        -- cbn [apply removal_apply bind] in E.
           unfold dict_has at 1 in E; rewrite (dict_pop_nodup_gone _ _ Hn) in E.
           injection E as <- _.
           unfold dict_has at 1; rewrite (dict_pop_nodup_gone _ _ Hn).
           split; [intros _; split; [exact Hkr|]; exists vd; auto | reflexivity].
        -- injection E as <- _; rewrite Hold; split; [discriminate|].
           intros [_ [vd' [Hg [_ Hm]]]]; rewrite Hv in Hg; injection Hg as <-; congruence.
      * destruct (process_properties_value (RemovalAction m) false n (PDict vd) s) as [[vd' s1]|e];
          cbn [bind] in E; [|discriminate E].
        injection E as <- _.
        unfold dict_has at 1; rewrite dict_get_set_same; split; [discriminate|].
        intros [_ [vd2 [Hg [Hh _]]]]; rewrite Hv in Hg; injection Hg as <-; congruence.
    + unfold dict_has at 1; rewrite (walk_step_other _ _ _ _ _ _ _ _ _ _ E Hne); fold (dict_has cur k).
      rewrite (Hk k Hkd); cbn [map fst].
      split.
      * intros [Hni Hh]; split; [intros H; apply Hni; right; exact H | exact Hh].
      * intros [Hni Hh]; split; [intros [H|H]; [congruence | exact (Hni H)] | exact Hh].
  - split; [exists []; reflexivity|]; split; [exact Hnd|].
    intros k Hkd; apply dict_has_In in Hkd as Hh; rewrite Hh; split; [discriminate|].
    intros [Hni _]; contradiction.
Qed.

(** Anonymization never adds, removes or reorders keys: the dict a walk
    returns has the keys of the dict it was given, in the same order. *)
Theorem anonymization_keeps_keys :
  forall (cv : bool) (d : dict) (n : node) (st : walker_state) (d' : dict) (st' : walker_state),
    process_properties_dict AnonymizationAction cv d n st = Ok (d', st') -> map fst d' = map fst d.
Proof.
  intros cv d n st d' st' Hrun.
  unfold process_properties_dict in Hrun; rewrite ppv_dict in Hrun.
  refine (proj1 (walk_loop_inv AnonymizationAction cv n
            (fun items cur _ => map fst cur = map fst d /\ incl (map fst items) (map fst d))
            _ d d st d' st' _ Hrun)).
  - intros key value rest cur s cur' s' [Hc Hinc] E.
    split; [|intros x Hx; apply Hinc; right; exact Hx].
    assert (Hkey : In key (map fst cur)) by (rewrite Hc; apply Hinc; left; reflexivity).
    rewrite <- Hc; unfold walk_step in E.
    destruct value as [| | |vd|]; try (injection E as <- _; reflexivity).
    destruct (dict_has vd (s2l "value")).
    + exact (anonymization_leaf_keys _ _ _ _ _ _ _ _ E Hkey).
    + destruct (process_properties_value AnonymizationAction cv n (PDict vd) s) as [[vd' s1]|e];
        cbn [bind] in E; [|discriminate E].
      injection E as <- _; apply dict_set_keys, Hkey.
  - split; [reflexivity | intros x Hx; exact Hx].
Qed.

(** A properties dict mixing a parameter leaf, plain values and a nested dict. *)
Definition mixed_properties : dict :=
  [(s2l "Foo", param_leaf "Foo_Bar" "x"); (s2l "Level", PStr (s2l "L1")); (s2l "Height", PNum 3);
   (s2l "nested", PDict [(s2l "Baz", param_leaf "Baz" "y")])].

Ltac nodup_keys :=
  vm_compute; repeat constructor; intros H; repeat (destruct H as [H|H]; [discriminate H|]); exact H.

Lemma walk_keeps_non_dict_entries_witness :
  exists d' st',
    process_properties_dict (RemovalAction (PrefixMatcher (s2l "Foo_") true)) false mixed_properties
      example_node walker_state0 = Ok (d', st')
    /\ dict_get d' (s2l "Level") = Some (PStr (s2l "L1")).
Proof.
  do 2 eexists; split; [vm_compute; reflexivity|].
  transitivity (dict_get mixed_properties (s2l "Level")); [|reflexivity].
  eapply (walk_keeps_non_dict_entries (RemovalAction (PrefixMatcher (s2l "Foo_") true)) false
           mixed_properties example_node walker_state0).
  - nodup_keys.
  - vm_compute; reflexivity.
  - intros vd; vm_compute; discriminate.
Defined.

Lemma removal_deletes_exactly_matching_leaves_witness :
  exists d' st',
    process_properties_dict (RemovalAction (PrefixMatcher (s2l "Foo_") true)) false mixed_properties
      example_node walker_state0 = Ok (d', st')
    /\ (dict_has d' (s2l "Foo") = false
        <-> exists vd, dict_get mixed_properties (s2l "Foo") = Some (PDict vd)
                       /\ dict_has vd (s2l "value") = true
                       /\ matches (PrefixMatcher (s2l "Foo_") true)
                                  (dict_get_or vd (s2l "name") (PStr (s2l "Foo"))) = Ok true).
Proof.
  do 2 eexists; split; [vm_compute; reflexivity|].
  eapply (removal_deletes_exactly_matching_leaves (PrefixMatcher (s2l "Foo_") true) mixed_properties
           example_node walker_state0).
  - nodup_keys.
  - vm_compute; reflexivity.
  - vm_compute; reflexivity.
Defined.

Definition email_properties : dict :=
  [(s2l "Owner", param_leaf "Owner" "ann@site.org");
   (s2l "Group", PDict [(s2l "Mail", param_leaf "Mail" "bo@x.io, cy@y.net")])].

Lemma anonymization_keeps_keys_witness :
  exists d' st',
    process_properties_dict AnonymizationAction true email_properties email_node walker_state0
    = Ok (d', st')
    /\ map fst d' = [s2l "Owner"; s2l "Group"].
Proof.
  do 2 eexists; split; [vm_compute; reflexivity|].
  transitivity (map fst email_properties); [|reflexivity].
  eapply (anonymization_keeps_keys true _ email_node walker_state0).
  vm_compute; reflexivity.
Defined.

(** ** Prefix matching on a name that is not a string *)

Section PrefixErrors.

Variables (p : str) (strict cv : bool) (n : node).

Let A := RemovalAction (PrefixMatcher p strict).

Lemma prefix_leaf_err (cur : dict) (key : str) (vd : dict) (st : walker_state) (e : exc) :
  process_leaf A cv n cur key vd st = Err e -> e = AttributeError.
Proof.
  unfold process_leaf, A; intros H.
  destruct (check _ _) as [[]|e'] eqn:Ec; cbn [bind] in H.
  - cbn [apply removal_apply bind] in H; discriminate H.
  - discriminate H.
  - injection H as <-; cbn [check matches] in Ec.
    match type of Ec with
    | context [match ?x with PStr _ => _ | _ => _ end] => destruct x
    end; try destruct strict; congruence.
Qed.

Lemma prefix_walk_err :
  forall v st e, process_properties_value A cv n v st = Err e -> e = AttributeError.
Proof.
  intros v; induction v as [s|k| |items Hall|t ms _] using pyval_nested_ind; intros st e Hrun;
    cbn [process_properties_value] in Hrun; try discriminate Hrun.
  revert Hrun; generalize items at 2 as cur; intros cur; revert cur st.
  induction Hall as [|[key value] rest Hv Hrest IH]; intros cur st Hrun; [discriminate Hrun|].
  cbn [bind] in Hrun.
  destruct value as [| | |vd|]; cbn [bind] in Hrun; try exact (IH _ _ Hrun).
  destruct (dict_has vd (s2l "value")).
  - destruct (process_leaf A cv n cur key vd st) as [[c1 s1]|e'] eqn:El; cbn [bind] in Hrun;
      [exact (IH _ _ Hrun) | injection Hrun as <-; exact (prefix_leaf_err _ _ _ _ _ El)].
  - destruct (process_properties_value A cv n (PDict vd) st) as [[vd' s1]|e'] eqn:En;
      cbn [bind] in Hrun; [exact (IH _ _ Hrun) | injection Hrun as <-; exact (Hv _ _ En)].
Qed.

Lemma prefix_step_err (key : str) (value : pyval) (cur : dict) (st : walker_state) (e : exc) :
  walk_step A cv n key value cur st = Err e -> e = AttributeError.
Proof.
  unfold walk_step; intros H; destruct value as [| | |vd|]; try discriminate H.
  destruct (dict_has vd (s2l "value")); [exact (prefix_leaf_err _ _ _ _ _ H)|].
  destruct (process_properties_value A cv n (PDict vd) st) as [[vd' s1]|e'] eqn:En;
    cbn [bind] in H; [discriminate H | injection H as <-; exact (prefix_walk_err _ _ _ En)].
Qed.

Lemma prefix_loop_reaches (key : str) (vd : dict) :
  dict_has vd (s2l "value") = true ->
  (forall c s, process_leaf A cv n c key vd s = Err AttributeError) ->
  forall items cur st, In (key, PDict vd) items -> walk_loop A cv n items cur st = Err AttributeError.
Proof.
  intros Hv Hl items; induction items as [|[k v] rest IH]; intros cur st Hin; [destruct Hin|].
  rewrite walk_loop_cons; destruct Hin as [Heq|Hin].
  - injection Heq as -> ->; unfold walk_step; rewrite Hv, Hl; reflexivity.
  - destruct (walk_step A cv n k v cur st) as [[c1 s1]|e] eqn:E; cbn [bind];
      [exact (IH _ _ Hin) | rewrite (prefix_step_err _ _ _ _ _ E); reflexivity].
Qed.

Lemma prefix_context_err (st : walker_state) (n' : node) (e : exc) :
  process_context A cv n st = Err e -> e = AttributeError.
Proof.
  unfold process_context; intros H.
  destruct (properties n) as [[s|k| |d|t ms]|]; cbn [bind] in H;
    try (injection H as <-; reflexivity);
    try (destruct (parameters n) as [[]|]; discriminate H).
  - destruct (process_properties_dict A cv d n st) as [[d' s1]|e'] eqn:E; cbn [bind] in H;
      [destruct (parameters _) as [[]|]; discriminate H|].
    injection H as <-; exact (prefix_walk_err _ _ _ E).
  - destruct (process_properties_dict A cv ms n st) as [[d' s1]|e'] eqn:E; cbn [bind] in H;
      [destruct (parameters _) as [[]|]; discriminate H|].
    injection H as <-; exact (prefix_walk_err _ _ _ E).
Qed.

End PrefixErrors.

Lemma prefix_traverse_reaches (p : str) (strict cv : bool) (n : node) :
  (forall s, process_context (RemovalAction (PrefixMatcher p strict)) cv n s = Err AttributeError) ->
  forall nodes st, In n nodes ->
    traverse (RemovalAction (PrefixMatcher p strict)) cv nodes st = Err AttributeError.
Proof.
  intros Hn nodes; induction nodes as [|m nodes IH]; intros st Hin; [destruct Hin|].
  cbn [traverse]; destruct Hin as [->|Hin]; [rewrite Hn; reflexivity|].
  destruct (process_context _ cv m st) as [[n1 s1]|e1] eqn:E; cbn [bind];
    [rewrite (IH s1 Hin); reflexivity|].
  rewrite (prefix_context_err p strict cv m st m e1 E); reflexivity.
Qed.

(** In prefix mode, a node of the received version whose properties hold a
    parameter leaf (a dict with a ["value"] key) whose ["name"] is not a
    string makes the run raise [AttributeError] (from [.lower()] or
    [.startswith]) right after the model is fetched: nothing is reported or
    committed and the run is marked neither succeeded nor failed. *)
Theorem prefix_non_string_name_raises :
  forall (fi : FunctionInputs) (w : world) (n : node) (d : dict) (key : str) (vd : dict) (name : pyval),
    sanitization_mode fi = PREFIX_MATCHING -> parameter_input fi <> [] ->
    In n (traversal w) ->
    (properties n = Some (PDict d) \/ exists t, properties n = Some (PBase t d)) ->
    In (key, PDict vd) d -> dict_has vd (s2l "value") = true ->
    dict_get vd (s2l "name") = Some name -> (forall s, name <> PStr s) ->
    automate_function fi w = [EvReceiveVersion; EvGetModel; EvRaise AttributeError].
Proof.
  intros fi w n d key vd name Hm Hp Hin Hprop Hkey Hv Hname Hns.
  unfold automate_function, select_action; rewrite Hm.
  destruct (parameter_input fi) as [|c s] eqn:Ep; [contradiction|]; cbn [is_nil].
  rewrite (prefix_traverse_reaches (c :: s) (strict_mode fi) false n); [reflexivity| |exact Hin].
  intros st.
  assert (Hleaf : forall cur s0,
             process_leaf (RemovalAction (PrefixMatcher (c :: s) (strict_mode fi))) false n cur key vd s0
             = Err AttributeError).
  { intros cur s0; unfold process_leaf, dict_get_or; rewrite Hname; cbn [check matches].
    destruct name; try reflexivity; exfalso; exact (Hns _ eq_refl). }
  unfold process_context; destruct Hprop as [->|[t ->]]; cbn [bind];
    unfold process_properties_dict; rewrite ppv_dict, (prefix_loop_reaches _ _ _ _ _ _ Hv Hleaf _ _ _ Hkey);
    reflexivity.
Qed.

Lemma prefix_non_string_name_raises_witness :
  automate_function (prefix_inputs "Foo_")
    {| traversal := [example_node;
                     {| nid := Some (s2l "n3");
                        properties := Some (PDict [(s2l "Width", PDict [(s2l "name", PNum 7);
                                                                       (s2l "value", PStr (s2l "2"))])]);
                        parameters := None |}];
       trigger_model_name := s2l "main"; new_version := (s2l "m", Some (s2l "v1")) |}
  = [EvReceiveVersion; EvGetModel; EvRaise AttributeError].
Proof.
  eapply prefix_non_string_name_raises with (name := PNum 7).
  - reflexivity.
  - discriminate.
  - right; left; reflexivity.
  - left; reflexivity.
  - left; reflexivity.
  - reflexivity.
  - reflexivity.
  - discriminate.
Defined.

(** ** function.py and helpers.py: [process_revit_parameters] *)

(** The v2 walk over [current_object.parameters], a [Base] whose members
    are looked up by name.  [get_dynamic_member_names] is specklepy's; it
    lists member names of the object and is called once, before the loop.
    [__getitem__] reads the live members and raises [KeyError] for a name
    that is no longer there, which the loop catches and skips (a bare
    [except:] in function.py, [except KeyError:] in helpers.py). *)
Section RevitParameters.

Variable get_dynamic_member_names : dict -> list str.

Definition revit_param_dict (name value : pyval) (parameter_key : str) : dict :=
  [(s2l "name", name); (s2l "value", value); (s2l "applicationInternalName", PStr parameter_key)].

(** The members of a [Base] container after [apply] mutated it in place. *)
Definition base_members (container : pyval) (members : dict) : dict :=
  match container with PBase _ ms => ms | _ => members end.

Fixpoint revit_loop (a : ParameterAction) (check_values : bool) (current_object : node)
    (t : str) (keys : list str) (ms : dict) (st : walker_state) {struct keys}
    : result (dict * walker_state) :=
  match keys with
  | [] => Ok (ms, st)
  | parameter_key :: rest =>
      match dict_get ms parameter_key with
      | None => revit_loop a check_values current_object t rest ms st        (* [KeyError] *)
      | Some (PBase pt pms) =>
          if str_eqb pt REVIT_PARAMETER_TYPE then
            let name_to_check := dict_get_or pms (s2l "name") (PStr []) in
            let value_to_check := dict_get_or pms (s2l "value") (PStr []) in
            let param_dict := revit_param_dict name_to_check value_to_check parameter_key in
            let* ok :=
              if check_values then
                match value_to_check with
                | PStr _ => check a value_to_check
                | _ => Ok false
                end
              else check a name_to_check in
            if ok then
              let* '(_, container', ast') := apply a param_dict current_object (PBase t ms) parameter_key (wact st) in
              revit_loop a check_values current_object t rest (base_members container' ms)
                {| processed_objects := set_add (processed_objects st) (nid current_object);
                   wact := ast' |}
            else revit_loop a check_values current_object t rest ms st
          else revit_loop a check_values current_object t rest ms st
      | Some _ => revit_loop a check_values current_object t rest ms st
      end
  end.

Definition process_revit_parameters (a : ParameterAction) (check_values : bool) (current_object : node)
    (st : walker_state) : result (node * walker_state) :=
  match parameters current_object with
  | None | Some PNone => Ok (current_object, st)
  | Some (PBase t ms) =>
      let* '(ms', st') :=
        revit_loop a check_values current_object t (get_dynamic_member_names ms) ms st in
      Ok ({| nid := nid current_object; properties := properties current_object;
             parameters := Some (PBase t ms') |}, st')
  | Some _ => Err AttributeError                    (* [.get_dynamic_member_names()] *)
  end.

End RevitParameters.

Lemma base_remove_pops (p ms : dict) (key : str) : base_remove p ms key = Ok (dict_pop ms key).
Proof. unfold base_remove; destruct (dict_has ms key); reflexivity. Qed.

Lemma frame_step (P : str -> Prop) (g g' g0 : str -> option pyval) (pre : list str) (key : str) :
  (forall k, (In k pre /\ P k -> g k = None) /\ (~ (In k pre /\ P k) -> g k = g0 k)) ->
  (forall k, k <> key -> g' k = g k) ->
  (P key -> g' key = None) -> (~ P key -> g' key = g key) ->
  forall k, (In k (pre ++ [key]) /\ P k -> g' k = None) /\ (~ (In k (pre ++ [key]) /\ P k) -> g' k = g0 k).
Proof.
  intros Hinv Hother Hyes Hno k.
  destruct (list_eq_dec ascii_dec k key) as [->|Hne].
  - split; [intros [_ Hp]; exact (Hyes Hp)|].
    intros Hn; assert (Hp : ~ P key)
      by (intros Hp; apply Hn; split; [apply in_or_app; right; left; reflexivity | exact Hp]).
    rewrite (Hno Hp); apply (proj2 (Hinv key)); intros [_ H]; exact (Hp H).
  - rewrite (Hother k Hne); rewrite in_app_iff.
    assert (Hk : In k [key] <-> False) by (cbn; split; [intros [H|[]]; congruence | intros []]).
    rewrite Hk; split; intros H; apply (Hinv k); [destruct H as [[H|[]] Hp]; split; assumption|].
    intros [H1 H2]; apply H; split; [left|]; assumption.
Qed.

Lemma revit_removal_loop (m : ParameterMatcher) (n : node) (t : str) (ms : dict) :
  let M := fun k => exists pms, dict_get ms k = Some (PBase REVIT_PARAMETER_TYPE pms)
                                /\ matches m (dict_get_or pms (s2l "name") (PStr [])) = Ok true in
  forall keys pre cur st ms' st',
    NoDup (map fst cur) ->
    (forall k, (In k pre /\ M k -> dict_get cur k = None) /\ (~ (In k pre /\ M k) -> dict_get cur k = dict_get ms k)) ->
    revit_loop (RemovalAction m) false n t keys cur st = Ok (ms', st') ->
    forall k, (In k (pre ++ keys) /\ M k -> dict_get ms' k = None)
              /\ (~ (In k (pre ++ keys) /\ M k) -> dict_get ms' k = dict_get ms k).
Proof.
  intros M keys; induction keys as [|key keys IH]; intros pre cur st ms' st' Hn Hinv H.
  - cbn in H; injection H as <- _; rewrite app_nil_r; exact Hinv.
  - replace (pre ++ key :: keys) with ((pre ++ [key]) ++ keys) by (rewrite <- app_assoc; reflexivity).
    assert (Hsame : forall s, ~ M key -> revit_loop (RemovalAction m) false n t keys cur s = Ok (ms', st') ->
                      forall k, (In k ((pre ++ [key]) ++ keys) /\ M k -> dict_get ms' k = None)
                                /\ (~ (In k ((pre ++ [key]) ++ keys) /\ M k) -> dict_get ms' k = dict_get ms k)).
    { intros s HM Hl; eapply (IH _ cur s _ _ Hn); [|exact Hl].
      apply (frame_step M (dict_get cur) (dict_get cur) (dict_get ms) pre key Hinv);
        [reflexivity | intros Hp; contradiction | reflexivity]. }
    assert (Hcur : forall v, dict_get cur key = Some v -> dict_get ms key = Some v).
    { intros v Hv; rewrite <- Hv; symmetry; apply (proj2 (Hinv key)); intros [Hi HM].
      rewrite (proj1 (Hinv key) (conj Hi HM)) in Hv; discriminate Hv. }
    assert (HnM : forall v, dict_get cur key = Some v -> (forall pms, v <> PBase REVIT_PARAMETER_TYPE pms) -> ~ M key).
    { intros v Hv Hne [pms [Hg _]]; rewrite (Hcur _ Hv) in Hg; injection Hg as Hg; exact (Hne pms Hg). }
    cbn [revit_loop] in H.
    destruct (dict_get cur key) as [v|] eqn:Eg.
    + destruct v as [s|k| |d|pt pms];
        try (apply (Hsame st); [apply (HnM _ eq_refl); intros pms; discriminate | exact H]).
      destruct (str_eqb pt REVIT_PARAMETER_TYPE) eqn:Et.
      * apply str_eqb_eq in Et; subst pt.
        cbn [check bind] in H.
        destruct (matches m (dict_get_or pms (s2l "name") (PStr []))) as [[]|e] eqn:Em;
          cbn [bind] in H; [| |discriminate H].
        -- cbn [apply] in H; unfold removal_apply in H; rewrite base_remove_pops in H; cbn [bind base_members] in H.
           eapply (IH _ (dict_pop cur key) _ _ _ (dict_pop_nodup _ _ Hn)); [|exact H].
           apply (frame_step M (dict_get cur) (dict_get (dict_pop cur key)) (dict_get ms) pre key Hinv).
           ++ intros k Hk; apply dict_get_pop_other, Hk.
           ++ intros _; apply dict_pop_nodup_gone, Hn.
           ++ intros HM; exfalso; apply HM; exists pms; split; [exact (Hcur _ eq_refl) | exact Em].
        -- apply (Hsame st); [|exact H].
           intros [pms' [Hg Hm]]; rewrite (Hcur _ eq_refl) in Hg; injection Hg as <-; congruence.
      * apply (Hsame st); [|exact H].
        apply (HnM _ eq_refl); intros pms' Heq; injection Heq as -> _.
        rewrite str_eqb_refl in Et; discriminate Et.
    + eapply (IH _ cur st _ _ Hn); [|exact H].
      apply (frame_step M (dict_get cur) (dict_get cur) (dict_get ms) pre key Hinv);
        [reflexivity | intros _; exact Eg | reflexivity].
Qed.

(** With a removal action in name mode, [process_revit_parameters] deletes
    from the [parameters] object (whose member names are distinct) exactly
    the members that [get_dynamic_member_names] lists and that are Revit
    parameters (a [Base] of type [Objects.BuiltElements.Revit.Parameter])
    whose ["name"] member (or [""]) the matcher accepts; every other member
    keeps its value. *)
Theorem revit_removal_deletes_exactly_matching :
  forall (get_dynamic_member_names : dict -> list str) (m : ParameterMatcher) (n : node) (t : str)
         (ms : dict) (st : walker_state) (n' : node) (st' : walker_state),
    parameters n = Some (PBase t ms) -> NoDup (map fst ms) ->
    process_revit_parameters get_dynamic_member_names (RemovalAction m) false n st = Ok (n', st') ->
    exists ms', parameters n' = Some (PBase t ms')
      /\ forall k,
           ((In k (get_dynamic_member_names ms)
             /\ exists pms, dict_get ms k = Some (PBase REVIT_PARAMETER_TYPE pms)
                            /\ matches m (dict_get_or pms (s2l "name") (PStr [])) = Ok true)
            -> dict_get ms' k = None)
           /\ (~ (In k (get_dynamic_member_names ms)
                  /\ exists pms, dict_get ms k = Some (PBase REVIT_PARAMETER_TYPE pms)
                                 /\ matches m (dict_get_or pms (s2l "name") (PStr [])) = Ok true)
               -> dict_get ms' k = dict_get ms k).
Proof.
  intros gdmn m n t ms st n' st' Hp Hnd H.
  unfold process_revit_parameters in H; rewrite Hp in H.
  destruct (revit_loop (RemovalAction m) false n t (gdmn ms) ms st) as [[ms' s']|e] eqn:E;
    cbn [bind] in H; [|discriminate H].
  injection H as <- _; exists ms'; split; [reflexivity|].
  exact (revit_removal_loop m n t ms (gdmn ms) [] ms st ms' s' Hnd
           (fun k => conj (fun H => False_ind _ (proj1 H)) (fun _ => eq_refl)) E).
Qed.

Lemma anonymization_apply_base (p : dict) (n : node) (t : str) (ms : dict) (key : str)
    (ast : action_state) (p' : dict) (c' : pyval) (ast' : action_state) :
  anonymization_apply p n (PBase t ms) key ast = Ok (p', c', ast') ->
  c' = PBase t ms
  \/ exists t' pms pms', dict_get ms key = Some (PBase t' pms) /\ c' = PBase t (dict_set ms key (PBase t' pms')).
Proof.
  unfold anonymization_apply; intros H.
  destruct (dict_get p (s2l "value")) as [[s| | | |]|]; try (injection H as _ <- _; left; reflexivity).
  destruct (anonymize_email (PStr s)) as [[w| | | |]|e]; cbn [bind] in H; try discriminate H;
    try (injection H as _ <- _; left; reflexivity).
  destruct (str_eqb w s); injection H as _ <- _; [left; reflexivity|].
  destruct (dict_get ms key) as [[| | | |t' pms]|] eqn:Eg; auto.
  destruct (dict_has pms _); [right; do 3 eexists; split; reflexivity | left; reflexivity].
Qed.

Lemma revit_anonymization_loop (cv : bool) (n : node) (t : str) (ms : dict) :
  forall keys cur st ms' st',
    map fst cur = map fst ms ->
    (forall k, (forall pms, dict_get ms k <> Some (PBase REVIT_PARAMETER_TYPE pms)) -> dict_get cur k = dict_get ms k) ->
    revit_loop AnonymizationAction cv n t keys cur st = Ok (ms', st') ->
    map fst ms' = map fst ms
    /\ forall k, (forall pms, dict_get ms k <> Some (PBase REVIT_PARAMETER_TYPE pms)) -> dict_get ms' k = dict_get ms k.
Proof.
  intros keys; induction keys as [|key keys IH]; intros cur st ms' st' Hk Hf H.
  - cbn in H; injection H as <- _; split; assumption.
  - cbn [revit_loop] in H.
    destruct (dict_get cur key) as [[s|k| |d|pt pms]|] eqn:Eg; try exact (IH _ _ _ _ Hk Hf H).
    destruct (str_eqb pt REVIT_PARAMETER_TYPE) eqn:Et; [|exact (IH _ _ _ _ Hk Hf H)].
    apply str_eqb_eq in Et; subst pt.
    match type of H with bind ?x _ = _ => destruct x as [[]|e] end; cbn [bind] in H;
      [| exact (IH _ _ _ _ Hk Hf H) | discriminate H].
    destruct (apply AnonymizationAction _ n (PBase t cur) key (wact st)) as [[[p' c'] ast']|e] eqn:Ea;
      cbn [bind] in H; [|discriminate H].
    cbn [apply] in Ea; apply anonymization_apply_base in Ea as [->|[t' [pms0 [pms' [Hg ->]]]]];
      cbn [base_members] in H; [exact (IH _ _ _ _ Hk Hf H)|].
    refine (IH _ _ _ _ _ _ H).
    + rewrite dict_set_keys; [exact Hk | exact (dict_get_In _ _ _ Hg)].
    + intros k Hn; destruct (list_eq_dec ascii_dec k key) as [->|Hne].
      * exfalso; apply (Hn pms); rewrite <- (Hf key Hn); exact Eg.
      * rewrite dict_get_set_other by exact Hne; exact (Hf k Hn).
Qed.

(** [process_revit_parameters] with the anonymization action, in either
    mode, keeps every member of the [parameters] object, in order, and
    changes none that is not a Revit parameter. *)
Theorem revit_anonymization_keeps_members :
  forall (get_dynamic_member_names : dict -> list str) (cv : bool) (n : node) (t : str)
         (ms : dict) (st : walker_state) (n' : node) (st' : walker_state),
    parameters n = Some (PBase t ms) ->
    process_revit_parameters get_dynamic_member_names AnonymizationAction cv n st = Ok (n', st') ->
    exists ms', parameters n' = Some (PBase t ms')
      /\ map fst ms' = map fst ms
      /\ forall k, (forall pms, dict_get ms k <> Some (PBase REVIT_PARAMETER_TYPE pms)) ->
                   dict_get ms' k = dict_get ms k.
Proof.
  intros gdmn cv n t ms st n' st' Hp H.
  unfold process_revit_parameters in H; rewrite Hp in H.
  destruct (revit_loop AnonymizationAction cv n t (gdmn ms) ms st) as [[ms' s']|e] eqn:E;
    cbn [bind] in H; [|discriminate H].
  injection H as <- _; exists ms'; split; [reflexivity|].
  exact (revit_anonymization_loop cv n t ms (gdmn ms) ms st ms' s' eq_refl (fun _ _ => eq_refl) E).
Qed.

(** A node whose v2 [parameters] hold two Revit parameters and a plain member. *)
Definition revit_param (name value : string) : pyval :=
  PBase REVIT_PARAMETER_TYPE [(s2l "name", PStr (s2l name)); (s2l "value", PStr (s2l value))].

Definition revit_node : node :=
  {| nid := Some (s2l "n4"); properties := None;
     parameters := Some (PBase (s2l "Base")
                          [(s2l "Foo_Code", revit_param "Foo_Code" "7");
                           (s2l "Contact", revit_param "Contact" "ann@site.org");
                           (s2l "Note", PStr (s2l "Foo_plain"))]) |}.

Lemma revit_removal_deletes_exactly_matching_witness :
  exists n' st',
    process_revit_parameters (map fst) (RemovalAction (PrefixMatcher (s2l "Foo_") true)) false revit_node
      walker_state0 = Ok (n', st')
    /\ exists ms', parameters n' = Some (PBase (s2l "Base") ms')
       /\ dict_get ms' (s2l "Foo_Code") = None
       /\ dict_get ms' (s2l "Note") = Some (PStr (s2l "Foo_plain")).
Proof.
  do 2 eexists; split; [vm_compute; reflexivity|].
  destruct (revit_removal_deletes_exactly_matching (map fst) (PrefixMatcher (s2l "Foo_") true)
              revit_node (s2l "Base") _ walker_state0 _ _ eq_refl ltac:(nodup_keys) eq_refl)
    as [ms' [Hp Hk]].
  exists ms'; split; [exact Hp|]; split.
  - apply (proj1 (Hk (s2l "Foo_Code"))); split; [left; reflexivity|].
    eexists; split; reflexivity.
  - apply (proj2 (Hk (s2l "Note"))); intros [_ [pms [Hg _]]]; discriminate Hg.
Defined.

Lemma revit_anonymization_keeps_members_witness :
  exists n' st',
    process_revit_parameters (map fst) AnonymizationAction true revit_node walker_state0 = Ok (n', st')
    /\ exists ms', parameters n' = Some (PBase (s2l "Base") ms')
       /\ map fst ms' = [s2l "Foo_Code"; s2l "Contact"; s2l "Note"].
Proof.
  do 2 eexists; split; [vm_compute; reflexivity|].
  destruct (revit_anonymization_keeps_members (map fst) true revit_node (s2l "Base") _ walker_state0 _ _
              eq_refl eq_refl) as [ms' [Hp [Hk _]]].
  exists ms'; split; [exact Hp | exact Hk].
Defined.
Lemma revit_anon_step_hit (n : node) (t : str) (key : str) (rest : list str) (cur pms : dict)
    (v w : str) (st : walker_state) :
  dict_get cur key = Some (PBase REVIT_PARAMETER_TYPE pms) ->
  dict_get pms (s2l "value") = Some (PStr v) ->
  contains_email (PStr v) = Ok true -> anonymize_email (PStr v) = Ok (PStr w) ->
  exists st', revit_loop AnonymizationAction true n t (key :: rest) cur st
              = revit_loop AnonymizationAction true n t rest
                  (dict_set cur key (PBase REVIT_PARAMETER_TYPE (dict_set pms (s2l "value") (PStr w)))) st'.
Proof.
  intros Hg Hv Hc Hw.
  destruct (anonymize_email_changes v Hc) as [w' [Hw' [Hne _]]].
  rewrite Hw in Hw'; injection Hw' as <-.
  cbn [revit_loop]; rewrite Hg, str_eqb_refl.
  assert (Hval : dict_get_or pms (s2l "value") (PStr []) = PStr v) by (unfold dict_get_or; rewrite Hv; reflexivity).
  rewrite Hval.
  cbn [check bind]; rewrite Hc; cbn [bind apply].
  unfold anonymization_apply.
  assert (Hd : forall nm, dict_get (revit_param_dict nm (PStr v) key) (s2l "value") = Some (PStr v))
    by reflexivity.
  rewrite Hd, Hw; cbn [bind].
  rewrite str_eqb_neq by exact Hne.
  rewrite Hg.
  assert (Hh : dict_has pms (s2l "value") = true) by (unfold dict_has; rewrite Hv; reflexivity).
  rewrite Hh; cbn [bind base_members].
  eexists; reflexivity.
Qed.

Lemma revit_anon_step_local (cv : bool) (n : node) (t key : str) (rest : list str) (cur : dict)
    (st : walker_state) (r : dict * walker_state) :
  revit_loop AnonymizationAction cv n t (key :: rest) cur st = Ok r ->
  exists cur' st', revit_loop AnonymizationAction cv n t rest cur' st' = Ok r
                   /\ forall k, k <> key -> dict_get cur' k = dict_get cur k.
Proof.
  cbn [revit_loop]; intros H.
  destruct (dict_get cur key) as [[s|k| |d|pt pms]|] eqn:Eg;
    try (exists cur, st; split; [exact H | reflexivity]).
  destruct (str_eqb pt REVIT_PARAMETER_TYPE); [|exists cur, st; split; [exact H | reflexivity]].
  match type of H with bind ?x _ = _ => destruct x as [[]|e] end; cbn [bind] in H;
    [| exists cur, st; split; [exact H | reflexivity] | discriminate H].
  destruct (apply AnonymizationAction _ n (PBase t cur) key (wact st)) as [[[p' c'] ast']|e] eqn:Ea;
    cbn [bind] in H; [|discriminate H].
  cbn [apply] in Ea; apply anonymization_apply_base in Ea as [->|[t' [pms0 [pms' [_ ->]]]]];
    cbn [base_members] in H; (eexists _, _; split; [exact H|]).
  - reflexivity.
  - intros k Hk; apply dict_get_set_other, Hk.
Qed.

Definition revit_email_hit (ms : dict) (k : str) : bool :=
  match dict_get ms k with
  | Some (PBase pt pms) =>
      str_eqb pt REVIT_PARAMETER_TYPE
      && match dict_get pms (s2l "value") with
         | Some (PStr v) => match contains_email (PStr v) with Ok b => b | Err _ => false end
         | _ => false
         end
  | _ => false
  end.

Lemma revit_email_hit_true (ms : dict) (k : str) :
  revit_email_hit ms k = true ->
  exists pms v w, dict_get ms k = Some (PBase REVIT_PARAMETER_TYPE pms)
                  /\ dict_get pms (s2l "value") = Some (PStr v)
                  /\ contains_email (PStr v) = Ok true /\ anonymize_email (PStr v) = Ok (PStr w).
Proof.
  unfold revit_email_hit; destruct (dict_get ms k) as [[| | | |pt pms]|] eqn:Eg; try discriminate.
  destruct (str_eqb pt REVIT_PARAMETER_TYPE) eqn:Et; [|discriminate]; apply str_eqb_eq in Et; subst pt.
  destruct (dict_get pms (s2l "value")) as [[v| | | |]|] eqn:Ev; try discriminate.
  destruct (contains_email (PStr v)) as [[]|e] eqn:Ec; try discriminate; intros _.
  destruct (anonymize_email_changes v Ec) as [w [Hw _]].
  exists pms, v, w; auto.
Qed.

Lemma revit_email_hit_of (ms pms : dict) (k v : str) :
  dict_get ms k = Some (PBase REVIT_PARAMETER_TYPE pms) ->
  dict_get pms (s2l "value") = Some (PStr v) -> contains_email (PStr v) = Ok true ->
  revit_email_hit ms k = true.
Proof. unfold revit_email_hit; intros H1 H2 H3; rewrite H1, str_eqb_refl, H2, H3; reflexivity. Qed.

Lemma revit_anon_masks_loop (n : node) (t : str) (ms : dict) :
  let target := fun pms w => Some (PBase REVIT_PARAMETER_TYPE (dict_set pms (s2l "value") (PStr w))) in
  let Q := fun k pms v w => dict_get ms k = Some (PBase REVIT_PARAMETER_TYPE pms)
                            /\ dict_get pms (s2l "value") = Some (PStr v)
                            /\ contains_email (PStr v) = Ok true /\ anonymize_email (PStr v) = Ok (PStr w) in
  forall keys pre cur st ms' st',
    NoDup (pre ++ keys) ->
    (forall k, ~ In k pre -> dict_get cur k = dict_get ms k) ->
    (forall k pms v w, In k pre -> Q k pms v w -> dict_get cur k = target pms w) ->
    revit_loop AnonymizationAction true n t keys cur st = Ok (ms', st') ->
    forall k pms v w, In k (pre ++ keys) -> Q k pms v w -> dict_get ms' k = target pms w.
Proof.
  intros target Q keys; induction keys as [|key keys IH]; intros pre cur st ms' st' Hnd Hun Hpr H.
  - cbn in H; injection H as <- _; rewrite app_nil_r; exact Hpr.
  - replace (pre ++ key :: keys) with ((pre ++ [key]) ++ keys) in * by (rewrite <- app_assoc; reflexivity).
    assert (Hkp : ~ In key pre)
      by (intros Hi; pose proof Hnd as Hn2; rewrite <- app_assoc in Hn2; apply NoDup_remove_2 in Hn2;
          apply Hn2, in_or_app; left; exact Hi).
    assert (Hcur : dict_get cur key = dict_get ms key) by exact (Hun key Hkp).
    assert (Hnew : forall k, ~ In k (pre ++ [key]) -> k <> key /\ ~ In k pre)
      by (intros k Hk; split; [intros ->; apply Hk, in_or_app; right; left; reflexivity
                              | intros Hi; apply Hk, in_or_app; left; exact Hi]).
    destruct (revit_email_hit ms key) eqn:Eh.
    + destruct (revit_email_hit_true _ _ Eh) as [pms [v [w [Hg [Hv [Hc Hw]]]]]].
      rewrite <- Hcur in Hg.
      destruct (revit_anon_step_hit n t key keys cur pms v w st Hg Hv Hc Hw) as [s1 Hs].
      rewrite Hs in H.
      refine (IH (pre ++ [key]) _ s1 ms' st' Hnd _ _ H).
      * intros k Hk; destruct (Hnew k Hk) as [Hne Hnp].
        rewrite dict_get_set_other by exact Hne; exact (Hun k Hnp).
      * intros k pms' v' w' Hk [Hg' [Hv' [Hc' Hw']]].
        destruct (list_eq_dec ascii_dec k key) as [->|Hne].
        -- rewrite dict_get_set_same; rewrite <- Hcur, Hg in Hg'; injection Hg' as <-.
           rewrite Hv in Hv'; injection Hv' as <-; rewrite Hw in Hw'; injection Hw' as <-; reflexivity.
        -- rewrite dict_get_set_other by exact Hne.
           apply in_app_or in Hk as [Hk|[Hk|[]]]; [|congruence].
           exact (Hpr k pms' v' w' Hk (conj Hg' (conj Hv' (conj Hc' Hw')))).
    + destruct (revit_anon_step_local true n t key keys cur st (ms', st') H) as [cur' [s1 [Hs Hloc]]].
      refine (IH (pre ++ [key]) _ s1 ms' st' Hnd _ _ Hs).
      * intros k Hk; destruct (Hnew k Hk) as [Hne Hnp]; rewrite (Hloc k Hne); exact (Hun k Hnp).
      * intros k pms' v' w' Hk [Hg' [Hv' [Hc' Hw']]].
        destruct (list_eq_dec ascii_dec k key) as [->|Hne].
        -- rewrite (revit_email_hit_of _ _ _ _ Hg' Hv' Hc') in Eh; discriminate Eh.
        -- rewrite (Hloc k Hne).
           apply in_app_or in Hk as [Hk|[Hk|[]]]; [|congruence].
           exact (Hpr k pms' v' w' Hk (conj Hg' (conj Hv' (conj Hc' Hw')))).
Qed.

(** With the anonymization action in value mode, [process_revit_parameters]
    writes the masked value back into the [parameters] object: each member
    listed once by [get_dynamic_member_names] that is a Revit parameter
    whose ["value"] is a string containing an email ends up as the same
    Revit parameter with ["value"] set to [anonymize_email] of that string. *)
Theorem revit_anonymization_masks_values :
  forall (get_dynamic_member_names : dict -> list str) (n : node) (t : str) (ms : dict)
         (st : walker_state) (n' : node) (st' : walker_state),
    parameters n = Some (PBase t ms) -> NoDup (get_dynamic_member_names ms) ->
    process_revit_parameters get_dynamic_member_names AnonymizationAction true n st = Ok (n', st') ->
    exists ms', parameters n' = Some (PBase t ms')
      /\ forall k pms v w,
           In k (get_dynamic_member_names ms) ->
           dict_get ms k = Some (PBase REVIT_PARAMETER_TYPE pms) ->
           dict_get pms (s2l "value") = Some (PStr v) ->
           contains_email (PStr v) = Ok true -> anonymize_email (PStr v) = Ok (PStr w) ->
           dict_get ms' k = Some (PBase REVIT_PARAMETER_TYPE (dict_set pms (s2l "value") (PStr w))).
Proof.
  intros gdmn n t ms st n' st' Hp Hnd H.
  unfold process_revit_parameters in H; rewrite Hp in H.
  destruct (revit_loop AnonymizationAction true n t (gdmn ms) ms st) as [[ms' s']|e] eqn:E;
    cbn [bind] in H; [|discriminate H].
  injection H as <- _; exists ms'; split; [reflexivity|].
  intros k pms v w Hk Hg Hv Hc Hw.
  exact (revit_anon_masks_loop n t ms (gdmn ms) [] ms st ms' s' Hnd (fun _ _ => eq_refl)
           (fun _ _ _ _ H _ => False_ind _ H) E k pms v w Hk (conj Hg (conj Hv (conj Hc Hw)))).
Qed.

Lemma revit_anonymization_masks_values_witness :
  exists n' st',
    process_revit_parameters (map fst) AnonymizationAction true revit_node walker_state0 = Ok (n', st')
    /\ exists ms', parameters n' = Some (PBase (s2l "Base") ms')
       /\ dict_get ms' (s2l "Contact") = Some (revit_param "Contact" "a*n@site.org").
Proof.
  do 2 eexists; split; [vm_compute; reflexivity|].
  destruct (revit_anonymization_masks_values (map fst) revit_node (s2l "Base") _ walker_state0 _ _
              eq_refl ltac:(nodup_keys) eq_refl) as [ms' [Hp Hk]].
  exists ms'; split; [exact Hp|].
  rewrite (Hk (s2l "Contact") [(s2l "name", PStr (s2l "Contact")); (s2l "value", PStr (s2l "ann@site.org"))]
             (s2l "ann@site.org") (s2l "a*n@site.org")); [reflexivity| | | | |].
  - right; left; reflexivity.
  - reflexivity.
  - reflexivity.
  - vm_compute; reflexivity.
  - vm_compute; reflexivity.
Defined.
